(** * Output selector and settings navigation of the workflow builder

    Shallow embedding of
    - [output-select.tsx]: [workflowOutputs], [addOutput],
      [selectedOutputDisplayName] and [groupedOutputs] (adjacency list,
      breadth-first distances, grouping by block name, sort, conversion
      back to a record);
    - [settings-navigation.tsx]: [allNavigationItems] and the filter that
      yields [navigationItems].

    Conventions.
    - A JavaScript string is a [string]; template literals are
      concatenations.
    - The store's [blocks] record is taken through [Object.values], i.e. as
      the list of its values in enumeration order; [edges] is an array.
    - A block's [outputs] is a JSON-like value ([JsValue]); an object is the
      list of its own enumerable properties in [Object.entries] order (an
      array is the object whose keys are its indices).
    - The plain objects the component itself creates with [{}] ([groups],
      [adjList], [blockDistances] and the returned record) are [JsRecord]s:
      own properties in creation order, read through the prototype chain
      ([Js.get]) and enumerated in the order of the language
      ([Js.Object_entries]: array-index keys first, ascending, then the
      other keys in creation order).
    - A computation that can raise returns a [Completion]. *)

From stdpp Require Import gmap strings list sorting.

#[local] Set Warnings "-register-all".

(* ===================================================================== *)
(** * The JavaScript values and objects the components handle *)
(* ===================================================================== *)

Module Js.

(** JSON-like values found in a block's [outputs].  [JObject] is what
    [typeof v === 'object' && v !== null] selects, arrays included; [JNaN]
    stands apart from [JNumber] because it is a falsy number. *)
Inductive JsValue : Type :=
| JUndefined
| JNull
| JBool (b : bool)
| JNumber (n : Z)
| JNaN
| JString (s : string)
| JObject (props : list (string * JsValue)).

(** [ToBoolean]. *)
Definition truthy (v : JsValue) : bool :=
  match v with
  | JUndefined | JNull | JNaN => false
  | JBool b => b
  | JNumber n => negb (n =? 0)%Z
  | JString s => negb (bool_decide (s = ""))
  | JObject _ => true
  end.

(** [obj.key] on a JSON-like object: the own property, [undefined] when
    there is none. *)
Fixpoint getProp (props : list (string * JsValue)) (key : string) : JsValue :=
  match props with
  | [] => JUndefined
  | (k, v) :: rest => if decide (k = key) then v else getProp rest key
  end.

(** What a statement can complete with. *)
Inductive JsError : Type :=
| TypeError (message : string).

(** [Unfinished] is not an outcome of the language: it marks a [while] loop
    that the iteration bound of its model cut short.  The one loop of the
    component is shown never to end that way. *)
Inductive Completion (A : Type) : Type :=
| Normal (a : A)
| Throw (e : JsError)
| Unfinished.
Arguments Normal {A} a.
Arguments Throw {A} e.
Arguments Unfinished {A}.

Definition bind {A B : Type} (c : Completion A) (k : A → Completion B) : Completion B :=
  match c with
  | Normal a => k a
  | Throw e => Throw e
  | Unfinished => Unfinished
  end.

(** [for (const x of xs) body], the body threading the state [s] and
    possibly raising. *)
Fixpoint forEach {A S : Type} (body : S → A → Completion S) (xs : list A) (s : S)
  : Completion S :=
  match xs with
  | [] => Normal s
  | x :: rest => bind (body s x) (forEach body rest)
  end.

(** ** Plain objects used as dictionaries *)

(** Own properties, in creation order. *)
Abbreviation JsRecord V := (list (string * V)).

Fixpoint ownGet {V : Type} (r : JsRecord V) (key : string) : option V :=
  match r with
  | [] => None
  | (k, v) :: rest => if decide (k = key) then Some v else ownGet rest key
  end.

(** [r[key] = v]: an existing property keeps its place, a new one is
    created last. *)
Fixpoint ownSet {V : Type} (r : JsRecord V) (key : string) (v : V) : JsRecord V :=
  match r with
  | [] => [(key, v)]
  | (k, w) :: rest =>
      if decide (k = key) then (k, v) :: rest else (k, w) :: ownSet rest key v
  end.

(** The property names every object literal inherits from
    [Object.prototype]. *)
Definition objectPrototypeKeys : list string :=
  [ "constructor"; "hasOwnProperty"; "isPrototypeOf";
    "propertyIsEnumerable"; "toLocaleString"; "toString"; "valueOf";
    "__defineGetter__"; "__defineSetter__"; "__lookupGetter__";
    "__lookupSetter__"; "__proto__" ].

(** The outcome of the read [r[key]]: an own property, a member of
    [Object.prototype] (a function, or the prototype itself for
    [__proto__]: truthy, not an array, not iterable, not a number), or
    [undefined]. *)
Inductive Lookup (V : Type) : Type :=
| Own (v : V)
| Inherited
| Missing.
Arguments Own {V} v.
Arguments Inherited {V}.
Arguments Missing {V}.

Definition get {V : Type} (r : JsRecord V) (key : string) : Lookup V :=
  match ownGet r key with
  | Some v => Own v
  | None => if bool_decide (key ∈ objectPrototypeKeys) then Inherited else Missing
  end.

(** ** Property enumeration order *)

Definition digitValue (c : Ascii.ascii) : option N :=
  let n := Ascii.N_of_ascii c in
  if ((48 <=? n) && (n <=? 57))%N then Some (n - 48)%N else None.

Fixpoint decimal (s : string) (acc : N) : option N :=
  match s with
  | EmptyString => Some acc
  | String c rest =>
      match digitValue c with
      | Some d => decimal rest (10 * acc + d)%N
      | None => None
      end
  end.

(** A key is an array index when it is the canonical decimal numeral of
    an integer between 0 and 2^32 - 2. *)
Definition arrayIndex (key : string) : option N :=
  match key with
  | EmptyString => None
  | String c rest =>
      if (Ascii.N_of_ascii c =? 48)%N then
        (* a leading 0 is canonical only in the numeral 0 itself *)
        match rest with
        | EmptyString => Some 0%N
        | String _ _ => None
        end
      else
        match decimal key 0 with
        | Some n => if (n <=? 4294967294)%N then Some n else None
        | None => None
        end
  end.

Definition isArrayIndex (key : string) : bool :=
  match arrayIndex key with
  | Some _ => true
  | None => false
  end.

Definition indexOf (key : string) : N := default 0%N (arrayIndex key).

Fixpoint insertByIndex {V : Type} (e : string * V) (l : list (string * V))
  : list (string * V) :=
  match l with
  | [] => [e]
  | e' :: rest =>
      if (indexOf e.1 <=? indexOf e'.1)%N then e :: l
      else e' :: insertByIndex e rest
  end.

(** [Object.entries(r)]: array-index keys in ascending numeric order,
    then the remaining keys in creation order. *)
Definition Object_entries {V : Type} (r : JsRecord V) : list (string * V) :=
  foldr insertByIndex [] (List.filter (λ e, isArrayIndex e.1) r)
  ++ List.filter (λ e, negb (isArrayIndex e.1)) r.

(** ** [Array.prototype.sort] *)

Fixpoint insertSorted {A : Type} (compareFn : A → A → Z) (x : A) (l : list A) : list A :=
  match l with
  | [] => [x]
  | y :: rest =>
      if (compareFn x y <=? 0)%Z then x :: l
      else y :: insertSorted compareFn x rest
  end.

(** The sort is stable: [x], which precedes the elements of [l], stays
    ahead of every element that does not compare strictly before it.
    For a consistent comparator every stable sort gives this result; for
    an inconsistent one the language leaves the order to the
    implementation, and this is one of the orders it may give. *)
Definition Array_sort {A : Type} (compareFn : A → A → Z) (l : list A) : list A :=
  foldr (insertSorted compareFn) [] l.

(** ** Strings *)

(** The ASCII characters [\s] matches.  [\s] and [toLowerCase] are
    modelled on ASCII characters only: a statement below either compares
    two values built with the same normalisation, or names a normalised
    value for a name of ASCII characters, on which this is the
    normalisation of the code. *)
Definition isWhitespace (c : Ascii.ascii) : bool :=
  let n := Ascii.N_of_ascii c in
  ((9 <=? n) && (n <=? 13) || (n =? 32))%N.

(** [s.replace(/\s+/g, '')]. *)
Fixpoint removeWhitespace (s : string) : string :=
  match s with
  | EmptyString => EmptyString
  | String c rest =>
      if isWhitespace c then removeWhitespace rest
      else String c (removeWhitespace rest)
  end.

Definition lowerChar (c : Ascii.ascii) : Ascii.ascii :=
  let n := Ascii.N_of_ascii c in
  if ((65 <=? n) && (n <=? 90))%N then Ascii.ascii_of_N (n + 32) else c.

(** [s.toLowerCase()], on ASCII letters. *)
Fixpoint toLowerCase (s : string) : string :=
  match s with
  | EmptyString => EmptyString
  | String c rest => String (lowerChar c) (toLowerCase rest)
  end.

End Js.

Import Js.

(* ===================================================================== *)
(** * output-select.tsx *)
(* ===================================================================== *)

(** A block of the workflow store, with the fields the component reads. *)
Module Block.
Record t : Type := mk
  { id : string;
    type : string;
    name : string;
    outputs : JsValue }.
End Block.

(** An edge of the workflow store, with the fields the component reads. *)
Module Edge.
Record t : Type := mk
  { source : string;
    target : string }.
End Edge.

(** An element of the [outputs] array of [workflowOutputs]. *)
Module Output.
Record t : Type := mk
  { id : string;
    label : string;
    blockId : string;
    blockName : string;
    blockType : string;
    path : string }.

#[export] Instance eq_dec : EqDecision t.
Proof. solve_decision. Defined.
End Output.

Module OutputSelect.

(** [!workflowId], [!selectedOutput] on a [string | null]. *)
Definition isSet (value : option string) : bool :=
  match value with
  | None => false
  | Some s => negb (bool_decide (s = ""))
  end.

(** [block.name.replace(/\s+/g, '').toLowerCase()]. *)
Definition normalizedName (name : string) : string :=
  toLowerCase (removeWhitespace name).

(** ** [workflowOutputs] *)

(** The closure [addOutput] of one [block]; [outputs] is the array it
    pushes to, returned after the pushes. *)
Fixpoint addOutput (block : Block.t) (blockName : string)
    (path : string) (outputObj : JsValue) (prefix : string)
    (outputs : list Output.t) {struct outputObj} : list Output.t :=
  let fullPath :=
    if bool_decide (prefix = "") then path else prefix +:+ "." +:+ path in
  match outputObj with
  | JObject props =>
      fold_left
        (λ outputs entry, addOutput block blockName entry.1 entry.2 fullPath outputs)
        props outputs
  | _ =>
      outputs ++
      [ {| Output.id := Block.id block +:+ "_" +:+ fullPath;
           Output.label := blockName +:+ "." +:+ fullPath;
           Output.blockId := Block.id block;
           Output.blockName := Block.name block;
           Output.blockType := Block.type block;
           Output.path := fullPath |} ]
  end.

(** The body of [Object.values(blocks).forEach]. *)
Definition processBlock (outputs : list Output.t) (block : Block.t) : list Output.t :=
  if bool_decide (Block.type block = "starter") then outputs
  else
    let blockName := normalizedName (Block.name block) in
    match Block.outputs block with
    | JObject props =>
        (* block.outputs && typeof block.outputs === 'object' *)
        let response := getProp props "response" in
        if truthy response
        then addOutput block blockName "response" response "" outputs
        else outputs
    | _ => outputs
    end.

Definition workflowOutputs (workflowId : option string) (blocks : list Block.t)
  : list Output.t :=
  if negb (isSet workflowId) then []
  else fold_left processBlock blocks [].

(** ** [selectedOutputDisplayName] *)

Definition selectedOutputDisplayName (selectedOutput : option string)
    (workflowOutputs : list Output.t) (placeholder : string) : string :=
  match selectedOutput with
  | None => placeholder
  | Some selected =>
      if bool_decide (selected = "") then placeholder
      else
        match List.find (λ o, bool_decide (Output.id o = selected)) workflowOutputs with
        | Some output =>
            normalizedName (Output.blockName output) +:+ "." +:+ Output.path output
        | None => placeholder
        end
  end.

(** ** [groupedOutputs] *)

(** [Object.values(blocks).find((block) => block.type === 'starter')?.id] *)
Definition starterBlockId (blocks : list Block.t) : option string :=
  Block.id <$> List.find (λ block, bool_decide (Block.type block = "starter")) blocks.

(** The body of [for (const edge of edges)]: the test reads
    [adjList[edge.source]] through the prototype chain, and [push] exists
    on an own array only. *)
Definition addEdge (adjList : JsRecord (list string)) (edge : Edge.t)
  : Completion (JsRecord (list string)) :=
  let adjList :=
    match get adjList (Edge.source edge) with
    | Missing => ownSet adjList (Edge.source edge) []
    | Own _ | Inherited => adjList
    end in
  match get adjList (Edge.source edge) with
  | Own targets =>
      Normal (ownSet adjList (Edge.source edge) (targets ++ [Edge.target edge]))
  | Inherited | Missing =>
      Throw (TypeError "adjList[edge.source].push is not a function")
  end.

Definition buildAdjList (edges : list Edge.t) : Completion (JsRecord (list string)) :=
  forEach addEdge edges [].

(** The variables of the breadth-first loop. *)
Record BfsState : Type := mkBfs
  { queue : list (string * nat);
    visited : gset string;
    blockDistances : JsRecord nat }.

Inductive Step : Type :=
| Exit
| Next (state : BfsState)
| Raise (e : JsError).

(** One evaluation of the [while] test and, when it holds, of the body.
    The assignment [blockDistances[currentNodeId] = distance] creates an
    own property except under the key [__proto__], where it does nothing;
    the read of [adjList] that follows raises for that key, so that the
    difference is never observed. *)
Definition bfsStep (adjList : JsRecord (list string)) (state : BfsState) : Step :=
  match queue state with
  | [] => Exit
  | (currentNodeId, distance) :: rest =>
      if bool_decide (currentNodeId ∈ visited state)
      then Next (mkBfs rest (visited state) (blockDistances state))
      else
        let visited' := {[currentNodeId]} ∪ visited state in
        let blockDistances' := ownSet (blockDistances state) currentNodeId distance in
        match get adjList currentNodeId with
        | Own outgoingNodeIds =>
            Next (mkBfs
                    (rest ++ ((λ targetId, (targetId, distance + 1)) <$> outgoingNodeIds))
                    visited' blockDistances')
        | Missing => Next (mkBfs rest visited' blockDistances')
        | Inherited => Raise (TypeError "outgoingNodeIds is not iterable")
        end
  end.

(** The loop, cut after [bound] evaluations of the body. *)
Fixpoint bfsLoop (bound : nat) (adjList : JsRecord (list string)) (state : BfsState)
  : Completion BfsState :=
  match bfsStep adjList state with
  | Exit => Normal state
  | Raise e => Throw e
  | Next state' =>
      match bound with
      | 0 => Unfinished
      | S bound' => bfsLoop bound' adjList state'
      end
  end.

(** The state after [n] evaluations of the body, while the loop runs. *)
Fixpoint bfsAfter (n : nat) (adjList : JsRecord (list string)) (state : BfsState)
  : option BfsState :=
  match n with
  | 0 => Some state
  | S n' =>
      match bfsStep adjList state with
      | Next state' => bfsAfter n' adjList state'
      | Exit | Raise _ => None
      end
  end.

(** The id a state is about to expand: the head of the queue, when it
    passes the [visited] test. *)
Definition expands (state : BfsState) : option string :=
  match queue state with
  | [] => None
  | (currentNodeId, _) :: _ =>
      if bool_decide (currentNodeId ∈ visited state) then None else Some currentNodeId
  end.

Definition bfsStart (starterBlockId : string) : BfsState :=
  mkBfs [(starterBlockId, 0)] ∅ [].

(** [blockDistances] as the [if (starterBlockId)] statement leaves it. Each
    edge is pushed on the queue at most once, after the starter, so the
    body runs at most [length edges + 1] times. *)
Definition computeDistances (blocks : list Block.t) (edges : list Edge.t)
  : Completion (JsRecord nat) :=
  if isSet (starterBlockId blocks) then
    bind (buildAdjList edges) (λ adjList,
    bind (bfsLoop (S (length edges)) adjList
            (bfsStart (default "" (starterBlockId blocks)))) (λ final,
    Normal (blockDistances final)))
  else Normal [].

(** The body of [workflowOutputs.forEach]. *)
Definition groupOutput (groups : JsRecord (list Output.t)) (output : Output.t)
  : Completion (JsRecord (list Output.t)) :=
  let groups :=
    match get groups (Output.blockName output) with
    | Missing => ownSet groups (Output.blockName output) []
    | Own _ | Inherited => groups
    end in
  match get groups (Output.blockName output) with
  | Own outputs =>
      Normal (ownSet groups (Output.blockName output) (outputs ++ [output]))
  | Inherited | Missing =>
      Throw (TypeError "groups[output.blockName].push is not a function")
  end.

Definition groupByBlockName (workflowOutputs : list Output.t)
  : Completion (JsRecord (list Output.t)) :=
  forEach groupOutput workflowOutputs [].

(** What a group's [distance] holds: a number, or a member of
    [Object.prototype] when the block id names one and no distance was
    stored under it. *)
Inductive Distance : Type :=
| Hops (n : nat)
| PrototypeMember.

#[export] Instance Distance_eq_dec : EqDecision Distance.
Proof. solve_decision. Defined.

Record Group : Type := mkGroup
  { blockName : string;
    outputs : list Output.t;
    distance : Distance }.

(** [blockId ? blockDistances[blockId] || 0 : 0], for the [blockId] read
    from [outputs[0]?.blockId]. *)
Definition distanceOf (blockDistances : JsRecord nat) (blockId : option string)
  : Distance :=
  if isSet blockId then
    match get blockDistances (default "" blockId) with
    | Own d => Hops d
    | Inherited => PrototypeMember
    | Missing => Hops 0
    end
  else Hops 0.

(** The callback of [Object.entries(groups).map]. *)
Definition toGroup (blockDistances : JsRecord nat)
    (entry : string * list Output.t) : Group :=
  let blockId := Output.blockId <$> head entry.2 in
  let distance := distanceOf blockDistances blockId in
  mkGroup entry.1 entry.2 distance.

(** [(a, b) => b.distance - a.distance]; the difference is [NaN] when a
    distance is not a number, which [sort] reads as [+0]. *)
Definition byDistanceDescending (a b : Group) : Z :=
  match distance b, distance a with
  | Hops db, Hops da => Z.of_nat db - Z.of_nat da
  | _, _ => 0
  end.

Definition groupsArray (blockDistances : JsRecord nat)
    (groups : JsRecord (list Output.t)) : list Group :=
  Array_sort byDistanceDescending (toGroup blockDistances <$> Object_entries groups).

(** [groupsArray.reduce(..., {})]. *)
Definition toRecord (groupsArray : list Group) : JsRecord (list Output.t) :=
  fold_left (λ acc group, ownSet acc (blockName group) (outputs group)) groupsArray [].

Definition groupedOutputs (workflowOutputs : list Output.t)
    (blocks : list Block.t) (edges : list Edge.t)
  : Completion (JsRecord (list Output.t)) :=
  bind (computeDistances blocks edges) (λ blockDistances,
  bind (groupByBlockName workflowOutputs) (λ groups,
  Normal (toRecord (groupsArray blockDistances groups)))).

(** What the dropdown renders: [Object.entries(groupedOutputs)]. *)
Definition renderedGroups (workflowOutputs : list Output.t)
    (blocks : list Block.t) (edges : list Edge.t)
  : Completion (list (string * list Output.t)) :=
  bind (groupedOutputs workflowOutputs blocks edges) (λ grouped,
  Normal (Object_entries grouped)).

End OutputSelect.

(* ===================================================================== *)
(** * settings-navigation.tsx *)
(* ===================================================================== *)

Module SettingsNavigation.

Inductive SectionId : Type :=
| general | environment | account | credentials | apikeys | subscription | team.

(** The icon components imported from [lucide-react]. *)
Inductive Icon : Type :=
| Settings | KeyRound | UserCircle | Key | KeySquare | CreditCard | Users.

(** [hideInDev] and [requiresTeam] are optional: [None] is an absent
    field. *)
Record NavigationItem : Type := mkItem
  { id : SectionId;
    label : string;
    icon : Icon;
    hideInDev : option bool;
    requiresTeam : option bool }.

#[export] Instance SectionId_eq_dec : EqDecision SectionId.
Proof. solve_decision. Defined.

#[export] Instance Icon_eq_dec : EqDecision Icon.
Proof. solve_decision. Defined.

#[export] Instance NavigationItem_eq_dec : EqDecision NavigationItem.
Proof. solve_decision. Defined.

Definition allNavigationItems : list NavigationItem :=
  [ mkItem general "General" Settings None None;
    mkItem environment "Environment" KeyRound None None;
    mkItem account "Account" UserCircle None None;
    mkItem credentials "Credentials" Key None None;
    mkItem apikeys "API Keys" KeySquare None None;
    mkItem subscription "Subscription" CreditCard (Some true) None;
    mkItem team "Team" Users (Some true) (Some true) ].

(** Truthiness of an optional boolean field or prop. *)
Definition isTrue (field : option bool) : bool := default false field.

(** The callback of [allNavigationItems.filter]. [isDev] is the constant
    imported from [@/lib/environment]; [isTeam] is the prop, [false] when
    omitted. *)
Definition isVisible (isDev : bool) (isTeam : option bool) (item : NavigationItem) : bool :=
  if isTrue (hideInDev item) && isDev then false
  else if isTrue (requiresTeam item) && negb (isTrue isTeam) then false
  else true.

Definition navigationItems (isDev : bool) (isTeam : option bool) : list NavigationItem :=
  List.filter (isVisible isDev isTeam) allNavigationItems.

(** The two gates, as the description of the filter names them. *)
Definition devGateFires (isDev : bool) (item : NavigationItem) : Prop :=
  hideInDev item = Some true ∧ isDev = true.

Definition teamGateFires (isTeam : option bool) (item : NavigationItem) : Prop :=
  requiresTeam item = Some true ∧ isTrue isTeam = false.

End SettingsNavigation.

(* ===================================================================== *)
(** * Reference definitions the statements compare the code with *)
(* ===================================================================== *)

Module Reference.

(** The key sequences that lead from a value to its leaves, in
    depth-first order; a value that is not an object is its own leaf. *)
Fixpoint leafPaths (value : JsValue) : list (list string) :=
  match value with
  | JObject props =>
      concat ((λ entry : string * JsValue, cons entry.1 <$> leafPaths entry.2) <$> props)
  | _ => [[]]
  end.

(** The dot-joined key sequence. *)
Definition dotJoin (keys : list string) : string := String.concat "." keys.

(** The output handle of [block] with the given path, labelled after
    [blockName]. *)
Definition handle (block : Block.t) (blockName path : string) : Output.t :=
  {| Output.id := Block.id block +:+ "_" +:+ path;
     Output.label := blockName +:+ "." +:+ path;
     Output.blockId := Block.id block;
     Output.blockName := Block.name block;
     Output.blockType := Block.type block;
     Output.path := path |}.

(** The output handle of [block] for the leaf at [keys]. *)
Definition handleAt (block : Block.t) (keys : list string) : Output.t :=
  handle block (OutputSelect.normalizedName (Block.name block)) (dotJoin keys).

(** The handles of one block: one per leaf under [outputs.response]. *)
Definition handlesOf (block : Block.t) : list Output.t :=
  match Block.outputs block with
  | JObject props =>
      handleAt block <$> (cons "response" <$> leafPaths (getProp props "response"))
  | _ => []
  end.

(** A string without underscore. *)
Fixpoint noUnderscore (s : string) : bool :=
  match s with
  | EmptyString => true
  | String c rest => negb (Ascii.N_of_ascii c =? 95)%N && noUnderscore rest
  end.

(** The first handle of the list that belongs to a name. *)
Definition firstOf (name : string) (workflowOutputs : list Output.t) : option Output.t :=
  List.find (λ o, bool_decide (Output.blockName o = name)) workflowOutputs.

(** The handles of the list that belong to a name, in discovery order. *)
Definition handlesNamed (name : string) (workflowOutputs : list Output.t) : list Output.t :=
  filter (λ o, Output.blockName o = name) workflowOutputs.

(** The block names of the list, each at its first occurrence: the order
    in which the groups are discovered. *)
Fixpoint firstNames (workflowOutputs : list Output.t) : list string :=
  match workflowOutputs with
  | [] => []
  | o :: rest => Output.blockName o :: filter (λ name, name ≠ Output.blockName o) (firstNames rest)
  end.

(** The groups in discovery order, each with all the handles of its
    name. *)
Definition groupsOf (workflowOutputs : list Output.t) : list (string * list Output.t) :=
  (λ name, (name, handlesNamed name workflowOutputs)) <$> firstNames workflowOutputs.

(** [groups] after the handles of [workflowOutputs] were added to it. *)
Definition merged (groups : list (string * list Output.t))
    (workflowOutputs : list Output.t) : list (string * list Output.t) :=
  ((λ entry, (entry.1, entry.2 ++ handlesNamed entry.1 workflowOutputs)) <$> groups)
  ++ ((λ name, (name, handlesNamed name workflowOutputs))
        <$> filter (λ name, name ∉ groups.*1) (firstNames workflowOutputs)).

(** The number a group is sorted by, when its distance is one. *)
Definition hops (distance : OutputSelect.Distance) : nat :=
  match distance with
  | OutputSelect.Hops n => n
  | OutputSelect.PrototypeMember => 0
  end.




(** The targets the loop has still to push: those of the sources not yet
    visited. *)
Fixpoint pending (adjList : list (string * list string)) (seen : gset string) : nat :=
  match adjList with
  | [] => 0
  | (source, targets) :: rest =>
      (if bool_decide (source ∈ seen) then 0 else length targets) + pending rest seen
  end.

(** A bound on the iterations the loop has left: the length of the queue
    plus the pending targets. *)
Definition remaining (adjList : list (string * list string))
    (state : OutputSelect.BfsState) : nat :=
  length (OutputSelect.queue state) + pending adjList (OutputSelect.visited state).

(** The edges of the workflow, as a relation on block ids. *)
Definition edgeIn (edges : list Edge.t) (source target : string) : Prop :=
  ∃ edge, edge ∈ edges ∧ Edge.source edge = source ∧ Edge.target edge = target.

(** The edges an adjacency list holds. *)
Definition edgeOf (adjList : list (string * list string)) (source target : string) : Prop :=
  ∃ targets, Js.ownGet adjList source = Some targets ∧ target ∈ targets.

(** [walk step n a b]: [b] is reached from [a] in [n] steps. *)
Inductive walk (step : string → string → Prop) : nat → string → string → Prop :=
| walk_here a : walk step 0 a a
| walk_more n a b c : walk step n a b → step b c → walk step (S n) a c.

(** [distance] is the hop count of a shortest walk from [start] to [id]. *)
Definition shortest (step : string → string → Prop) (start id : string) (distance : nat)
  : Prop :=
  walk step distance start id ∧ ∀ n, walk step n start id → distance ≤ n.

(** What the breadth-first loop maintains, for the loop started at
    [start]: the starter is visited once the first iteration is over; the
    stored distances are those of the visited ids and are shortest; a
    queued pair is backed by a walk of its length; the queue is in
    ascending order of distance and spans at most two consecutive
    distances; and the targets of a visited id are visited or queued one
    hop further. *)
Definition bfsInvariant (adjList : list (string * list string)) (start : string)
    (state : OutputSelect.BfsState) : Prop :=
  (start ∈ OutputSelect.visited state ∨ state = OutputSelect.bfsStart start)
  ∧ (∀ id, id ∈ OutputSelect.visited state
           ↔ is_Some (Js.ownGet (OutputSelect.blockDistances state) id))
  ∧ (∀ id distance,
       Js.ownGet (OutputSelect.blockDistances state) id = Some distance →
       shortest (edgeOf adjList) start id distance)
  ∧ (∀ id distance, (id, distance) ∈ OutputSelect.queue state →
       walk (edgeOf adjList) distance start id)
  ∧ StronglySorted (λ a b : string * nat, a.2 ≤ b.2) (OutputSelect.queue state)
  ∧ (∀ first entry, head (OutputSelect.queue state) = Some first →
       entry ∈ OutputSelect.queue state → entry.2 ≤ S first.2)
  ∧ (∀ id distance target,
       Js.ownGet (OutputSelect.blockDistances state) id = Some distance →
       edgeOf adjList id target →
       target ∈ OutputSelect.visited state
       ∨ (target, distance + 1) ∈ OutputSelect.queue state).

(** The number of targets an adjacency list holds. *)
Definition targetCount (adjList : list (string * list string)) : nat :=
  pending adjList ∅.

End Reference.

(* ===================================================================== *)
(** * Concrete workflows *)
(* ===================================================================== *)

Module Examples.

Definition textResponse : JsValue :=
  JObject [("response", JObject [("text", JString "x")])].

(** The example of the specification: a starter and one agent. *)
Definition start : Block.t := Block.mk "start" "starter" "Start" textResponse.
Definition agent1 : Block.t := Block.mk "agent1" "agent" "Agent 1" textResponse.

(** A block with nested outputs, a null leaf and a key that holds a dot. *)
Definition nested : Block.t :=
  Block.mk "fn" "function" "My Function"
    (JObject
       [("response",
         JObject [("result", JNull);
                  ("usage", JObject [("tokens", JNumber 0); ("cost", JNaN)]);
                  ("a.b", JBool false);
                  ("empty", JObject [])]);
        ("other", JString "ignored")]).

(** Blocks whose [response] is not a mapping. *)
Definition plainResponse : Block.t :=
  Block.mk "p" "api" "Plain" (JObject [("response", JString "text")]).
Definition zeroResponse : Block.t :=
  Block.mk "z" "api" "Zero" (JObject [("response", JNumber 0)]).

(** Two blocks whose ids and paths concatenate to the same identifier. *)
Definition shortId : Block.t :=
  Block.mk "a" "agent" "A"
    (JObject [("response", JObject [("x_response", JObject [("y", JString "s")])])]).
Definition longId : Block.t :=
  Block.mk "a_response.x" "agent" "B"
    (JObject [("response", JObject [("y", JString "s")])]).

(** Blocks named by numerals, in a chain behind the starter. *)
Definition one : Block.t := Block.mk "b1" "agent" "1" textResponse.
Definition two : Block.t := Block.mk "b2" "agent" "2" textResponse.
Definition chain : list Edge.t := [Edge.mk "start" "b1"; Edge.mk "b1" "b2"].

(** The same chain with ordinary names. *)
Definition near : Block.t := Block.mk "b1" "agent" "Near" textResponse.
Definition far : Block.t := Block.mk "b2" "agent" "Far" textResponse.

(** A block named after a member of [Object.prototype]. *)
Definition ctor : Block.t := Block.mk "b3" "agent" "constructor" textResponse.

(** Two blocks that share a name, the second further from the starter. *)
Definition twinNear : Block.t := Block.mk "b1" "agent" "Twin" textResponse.
Definition twinFar : Block.t := Block.mk "b2" "agent" "Twin" textResponse.

(** A cycle through the starter. *)
Definition cycleStart : Block.t := Block.mk "A" "starter" "Start" JUndefined.
Definition cycleEnd : Block.t := Block.mk "B" "agent" "Agent" textResponse.
Definition cycle : list Edge.t := [Edge.mk "A" "B"; Edge.mk "B" "A"].

End Examples.

(* ===================================================================== *)
(** * output-select.tsx: the selected handle, the handlers and the panel *)
(* ===================================================================== *)

(** What [selectedOutputInfo] returns. *)
Module Info.
Record t : Type := mk
  { blockName : string;
    blockId : string;
    blockType : string;
    path : string }.
End Info.

Module Dropdown.
Import OutputSelect.

(** ** [selectedOutputInfo] *)

Definition selectedOutputInfo (selectedOutput : option string)
    (workflowOutputs : list Output.t) : option Info.t :=
  match selectedOutput with
  | None => None
  | Some selected =>
      if bool_decide (selected = "") then None
      else
        match List.find (λ o, bool_decide (Output.id o = selected)) workflowOutputs with
        | Some output =>
            Some {| Info.blockName := Output.blockName output;
                    Info.blockId := Output.blockId output;
                    Info.blockType := Output.blockType output;
                    Info.path := Output.path output |}
        | None => None
        end
  end.

(** ** The state and the handlers *)

(** [isOutputDropdownOpen] is the state of the component.  The callback
    [onOutputSelect] belongs to the parent; [selections] lists the
    arguments it was called with, oldest first. *)
Record State : Type := mkState
  { isOutputDropdownOpen : bool;
    selections : list string }.

(** [useState(false)], before any call of the callback. *)
Definition initial : State := mkState false [].

(** [onClick] of the toggle button. *)
Definition toggle (state : State) : State :=
  mkState (negb (isOutputDropdownOpen state)) (selections state).

(** [handleClickOutside]: [contains] is [None] while [dropdownRef.current]
    is null, and otherwise tells whether the element contains the target
    of the event. *)
Definition handleClickOutside (contains : option bool) (state : State) : State :=
  match contains with
  | Some false => mkState false (selections state)
  | Some true | None => state
  end.

Definition handleOutputSelection (value : string) (state : State) : State :=
  mkState false (selections state ++ [value]).

(** ** What is rendered *)

(** The [disabled] attribute of the toggle button. *)
Definition buttonDisabled (workflowOutputs : list Output.t) (disabled : bool) : bool :=
  bool_decide (length workflowOutputs = 0) || disabled.

(** [isOutputDropdownOpen && workflowOutputs.length > 0]: the panel is
    part of the tree. *)
Definition panelRendered (state : State) (workflowOutputs : list Output.t) : bool :=
  isOutputDropdownOpen state && bool_decide (0 < length workflowOutputs).

(** A button of the panel: its React key, the argument its [onClick]
    passes to [handleOutputSelection], whether it carries the classes of
    the selected handle, and its text. *)
Record OptionButton : Type := mkOption
  { optionKey : string;
    optionValue : string;
    optionSelected : bool;
    optionText : string }.

Definition optionButton (selectedOutput : option string) (output : Output.t)
  : OptionButton :=
  mkOption (Output.id output) (Output.id output)
    (bool_decide (selectedOutput = Some (Output.id output)))
    (Output.path output).

(** The groups of the panel, each with its key (also its heading) and its
    buttons: [Object.entries(groupedOutputs).map] over [outputs.map]. *)
Definition panel (selectedOutput : option string) (grouped : JsRecord (list Output.t))
  : list (string * list OptionButton) :=
  (λ entry : string * list Output.t, (entry.1, optionButton selectedOutput <$> entry.2))
  <$> Object_entries grouped.

Definition panelButtons (selectedOutput : option string)
    (grouped : JsRecord (list Output.t)) : list OptionButton :=
  concat (panel selectedOutput grouped).*2.

(** ** Events *)

(** A click on the toggle button, a [mousedown] on the document, a click
    on the button of the panel that passes [value]. *)
Inductive Event : Type :=
| ToggleClick
| MouseDown (contains : option bool)
| OptionClick (value : string).

(** The handler an event reaches.  A disabled button receives no click,
    and a button of the panel receives one only while the panel is part
    of the tree; an event that reaches no handler leaves the state as it
    is. *)
Definition dispatch (workflowOutputs : list Output.t) (grouped : JsRecord (list Output.t))
    (selectedOutput : option string) (disabled : bool)
    (state : State) (event : Event) : State :=
  match event with
  | ToggleClick =>
      if buttonDisabled workflowOutputs disabled then state else toggle state
  | MouseDown contains => handleClickOutside contains state
  | OptionClick value =>
      if panelRendered state workflowOutputs
         && bool_decide (value ∈ optionValue <$> panelButtons selectedOutput grouped)
      then handleOutputSelection value state
      else state
  end.

(** The state after a sequence of events, the props staying as they
    are. *)
Definition interact (workflowOutputs : list Output.t) (grouped : JsRecord (list Output.t))
    (selectedOutput : option string) (disabled : bool)
    (events : list Event) (state : State) : State :=
  fold_left (dispatch workflowOutputs grouped selectedOutput disabled) events state.

End Dropdown.

(* ===================================================================== *)
(** * settings-navigation.tsx: the buttons *)
(* ===================================================================== *)

Module SettingsNavigationView.
Import SettingsNavigation.

(** The string literal an identifier stands for. *)
Definition sectionName (id : SectionId) : string :=
  match id with
  | general => "general"
  | environment => "environment"
  | account => "account"
  | credentials => "credentials"
  | apikeys => "apikeys"
  | subscription => "subscription"
  | team => "team"
  end.

(** A button of the navigation: its React key, the argument its
    [onClick] passes to [onSectionChange], whether it carries the classes
    of the active section, its icon and its text. *)
Record NavButton : Type := mkButton
  { buttonKey : SectionId;
    buttonSection : SectionId;
    buttonActive : bool;
    buttonIcon : Icon;
    buttonText : string }.

(** The callback of [navigationItems.map]. *)
Definition navButton (activeSection : string) (item : NavigationItem) : NavButton :=
  mkButton (id item) (id item)
    (bool_decide (activeSection = sectionName (id item)))
    (icon item) (label item).

Definition buttons (isDev : bool) (isTeam : option bool) (activeSection : string)
  : list NavButton :=
  navButton activeSection <$> navigationItems isDev isTeam.

End SettingsNavigationView.

(* ===================================================================== *)
(** * Conditions on the store the statements name *)
(* ===================================================================== *)

Module Shape.

(** A string without dot. *)
Fixpoint noDot (s : string) : bool :=
  match s with
  | EmptyString => true
  | String c rest => negb (Ascii.N_of_ascii c =? 46)%N && noDot rest
  end.

(** A string of ASCII characters.  On such a name the normalisation of
    the model, [OutputSelect.normalizedName], is the one of the code: the
    ASCII characters [\s] matches are the six of [Js.isWhitespace], and
    [toLowerCase] changes the letters A to Z and no other ASCII
    character. *)
Fixpoint isAscii (s : string) : bool :=
  match s with
  | EmptyString => true
  | String c rest => (Ascii.N_of_ascii c <? 128)%N && isAscii rest
  end.

(** An [outputs] value in which no object has two properties of the same
    name, which holds of every object of the language, and no property
    name holds a dot. *)
Fixpoint plainKeys (value : JsValue) : bool :=
  match value with
  | JObject props =>
      bool_decide (NoDup props.*1)
      && forallb (λ entry : string * JsValue, noDot entry.1 && plainKeys entry.2) props
  | _ => true
  end.

(** Nothing of the workflow that the distance computation uses as a key
    names a member of [Object.prototype]: when there is a starter to
    start from, no edge leaves such an identifier and none is reached
    from the starter along the edges, the starter included. *)
Definition ordinaryWorkflow (blocks : list Block.t) (edges : list Edge.t) : Prop :=
  ∀ start, OutputSelect.starterBlockId blocks = Some start → start ≠ "" →
    (∀ edge, edge ∈ edges → Edge.source edge ∉ objectPrototypeKeys)
    ∧ ∀ id n, Reference.walk (Reference.edgeIn edges) n start id →
        id ∉ objectPrototypeKeys.

(** The distances stored so far are stored for ordinary identifiers. *)
Definition storedOrdinary (state : OutputSelect.BfsState) : Prop :=
  ∀ id distance,
    Js.ownGet (OutputSelect.blockDistances state) id = Some distance →
    id ∉ objectPrototypeKeys.

End Shape.

Module MoreExamples.
Import Examples.

(** Two handles under one block, and a second block. *)
Definition writer : Block.t :=
  Block.mk "w1" "agent" "Writer"
    (JObject [("response", JObject [("text", JString ""); ("tokens", JNumber 0)])]).

Definition reviewer : Block.t := Block.mk "r1" "agent" "Reviewer" textResponse.

(** A second block named as [ctor] is. *)
Definition ctorTwin : Block.t := Block.mk "b4" "agent" "constructor" textResponse.

Definition review : list Edge.t := [Edge.mk "start" "w1"; Edge.mk "w1" "r1"].

End MoreExamples.

(* ===================================================================== *)
(** * Strings *)
(* ===================================================================== *)

Section strings.
Implicit Types s t u : string.

Lemma append_cons c s t : String c s +:+ t = String c (s +:+ t).
Proof. reflexivity. Qed.

Lemma append_nil_l s : "" +:+ s = s.
Proof. reflexivity. Qed.

Lemma append_assoc s t u : (s +:+ t) +:+ u = s +:+ (t +:+ u).
Proof.
  induction s as [|c s IH]; [done|].
  by rewrite !append_cons, IH.
Qed.

Lemma append_eq_nil s t : s +:+ t = "" → s = "" ∧ t = "".
Proof. destruct s; [done | by rewrite append_cons]. Qed.

End strings.

(* ===================================================================== *)
(** * Induction on JSON-like values *)
(* ===================================================================== *)

Lemma JsValue_nested_ind (P : JsValue → Prop) :
  P JUndefined → P JNull → (∀ b, P (JBool b)) → (∀ n, P (JNumber n)) →
  P JNaN → (∀ s, P (JString s)) →
  (∀ props, Forall (λ entry, P entry.2) props → P (JObject props)) →
  ∀ value, P value.
Proof.
  intros Hundef Hnull Hbool Hnum Hnan Hstr Hobj.
  fix IH 1. intros [| |b|n| |s|props].
  - exact Hundef.
  - exact Hnull.
  - exact (Hbool b).
  - exact (Hnum n).
  - exact Hnan.
  - exact (Hstr s).
  - apply Hobj. induction props as [|[key value] props IHprops].
    + constructor.
    + constructor; [exact (IH value) | exact IHprops].
Qed.

(* ===================================================================== *)
(** * workflowOutputs *)
(* ===================================================================== *)

Section flatten.
Import OutputSelect Reference.

Lemma dotJoin_cons key keys :
  dotJoin (key :: keys) =
  match keys with [] => key | _ => key +:+ "." +:+ dotJoin keys end.
Proof. by destruct keys. Qed.

(** Joining after the first separator was already put in. *)
Lemma dotJoin_merge prefix key keys :
  dotJoin ((prefix +:+ "." +:+ key) :: keys) = dotJoin (prefix :: key :: keys).
Proof.
  rewrite (dotJoin_cons prefix), !dotJoin_cons.
  destruct keys; [done|]. by rewrite !append_assoc.
Qed.

Lemma fold_left_addOutput block blockName fullPath props :
  Forall (λ entry : string * JsValue, ∀ path prefix outputs,
    (if bool_decide (prefix = "") then path else prefix +:+ "." +:+ path) ≠ "" →
    addOutput block blockName path entry.2 prefix outputs =
    outputs ++ ((λ keys, handle block blockName
      (dotJoin ((if bool_decide (prefix = "") then path else prefix +:+ "." +:+ path) :: keys)))
      <$> leafPaths entry.2)) props →
  fullPath ≠ "" →
  ∀ outputs,
  fold_left (λ outputs entry, addOutput block blockName entry.1 entry.2 fullPath outputs)
    props outputs =
  outputs ++ ((λ keys, handle block blockName (dotJoin (fullPath :: keys)))
    <$> concat ((λ entry : string * JsValue, cons entry.1 <$> leafPaths entry.2) <$> props)).
Proof.
  intros Hall Hfull. induction Hall as [|[key value] props Hhead _ IH]; intros outputs.
  - by rewrite app_nil_r.
  - cbn [fold_left fmap list_fmap concat]. rewrite IH. cbn [fst snd].
    rewrite Hhead; rewrite bool_decide_eq_false_2 by done.
    + rewrite fmap_app, <- app_assoc. do 2 f_equal.
      rewrite <- list_fmap_compose. apply list_fmap_ext. intros _ keys _.
      unfold compose. by rewrite dotJoin_merge.
    + intros [_ [=]]%append_eq_nil.
Qed.

Lemma addOutput_leafPaths block blockName value :
  ∀ path prefix outputs,
  (if bool_decide (prefix = "") then path else prefix +:+ "." +:+ path) ≠ "" →
  addOutput block blockName path value prefix outputs =
  outputs ++ ((λ keys, handle block blockName
    (dotJoin ((if bool_decide (prefix = "") then path else prefix +:+ "." +:+ path) :: keys)))
    <$> leafPaths value).
Proof.
  induction value as [| | | | | |props IH] using JsValue_nested_ind;
    intros path prefix outputs Hfull; try done.
  cbn [addOutput leafPaths]. by apply fold_left_addOutput.
Qed.


(** What one block adds to the array. *)
Lemma processBlock_contribution outputs block :
  processBlock outputs block =
  outputs ++
  (if bool_decide (Block.type block = "starter") then []
   else match Block.outputs block with
        | JObject props =>
            if truthy (getProp props "response") then handlesOf block else []
        | _ => []
        end).
Proof.
  unfold processBlock, handlesOf. case_bool_decide; [by rewrite app_nil_r|].
  destruct (Block.outputs block) as [| | | | | |props]; try by rewrite app_nil_r.
  destruct (truthy _); [|by rewrite app_nil_r].
  rewrite addOutput_leafPaths by done. f_equal.
  rewrite <- list_fmap_compose. by apply list_fmap_ext.
Qed.

Lemma fold_left_processBlock blocks outputs :
  fold_left processBlock blocks outputs =
  outputs ++ concat (processBlock [] <$> blocks).
Proof.
  revert outputs. induction blocks as [|block blocks IH]; intros outputs.
  - by rewrite app_nil_r.
  - cbn [fold_left fmap list_fmap concat]. rewrite IH.
    rewrite (processBlock_contribution outputs), (processBlock_contribution []).
    by rewrite app_nil_l, app_assoc.
Qed.

Lemma workflowOutputs_set workflowId blocks :
  isSet workflowId = true →
  workflowOutputs workflowId blocks = concat (processBlock [] <$> blocks).
Proof.
  intros Hset. unfold workflowOutputs. rewrite Hset. cbn [negb].
  by rewrite fold_left_processBlock.
Qed.

Lemma workflowOutputs_unset workflowId blocks :
  isSet workflowId = false → workflowOutputs workflowId blocks = [].
Proof. intros Hset. unfold workflowOutputs. by rewrite Hset. Qed.

Lemma workflowOutputs_app workflowId blocks1 blocks2 :
  workflowOutputs workflowId (blocks1 ++ blocks2) =
  workflowOutputs workflowId blocks1 ++ workflowOutputs workflowId blocks2.
Proof.
  destruct (isSet workflowId) eqn:Hset.
  - by rewrite !workflowOutputs_set, fmap_app, concat_app.
  - by rewrite !workflowOutputs_unset.
Qed.

Lemma workflowOutputs_cons workflowId block blocks :
  workflowOutputs workflowId (block :: blocks) =
  workflowOutputs workflowId [block] ++ workflowOutputs workflowId blocks.
Proof. apply (workflowOutputs_app workflowId [block]). Qed.

(** Every handle of the array is the handle of a leaf of a block that is
    not the starter. *)
Lemma elem_of_workflowOutputs workflowId blocks output :
  output ∈ workflowOutputs workflowId blocks →
  ∃ block keys,
    block ∈ blocks ∧ Block.type block ≠ "starter" ∧
    output = handleAt block ("response" :: keys).
Proof.
  destruct (isSet workflowId) eqn:Hset.
  2:{ rewrite workflowOutputs_unset by done. by intros ?%elem_of_nil. }
  rewrite workflowOutputs_set by done.
  rewrite list_elem_of_In, in_concat.
  intros (handles & Hhandles%list_elem_of_In & Hin%list_elem_of_In).
  apply list_elem_of_fmap in Hhandles as (block & -> & Hblock).
  rewrite processBlock_contribution, app_nil_l in Hin.
  case_bool_decide as Htype; [by apply elem_of_nil in Hin|].
  unfold handlesOf in Hin.
  destruct (Block.outputs block) as [| | | | | |props]; try by apply elem_of_nil in Hin.
  destruct (truthy _); [|by apply elem_of_nil in Hin].
  apply list_elem_of_fmap in Hin as (keys' & -> & (keys & -> & _)%list_elem_of_fmap).
  by exists block, keys.
Qed.

End flatten.

(* ===================================================================== *)
(** * The flattened handle list *)
(* ===================================================================== *)

Section handles.
Import OutputSelect Reference Examples.

(** C9. Without a workflow identifier the handle list is empty, whatever
    the blocks are, so that the display name is the placeholder and the
    grouping loop has nothing to add; the computation is total, so
    nothing is raised. *)
Theorem workflowOutputs_without_workflow (blocks : list Block.t) :
  workflowOutputs None blocks = []
  ∧ (∀ selectedOutput placeholder,
       selectedOutputDisplayName selectedOutput (workflowOutputs None blocks) placeholder
       = placeholder)
  ∧ groupByBlockName (workflowOutputs None blocks) = Normal [].
Proof.
  split; [reflexivity|]. split; [|reflexivity].
  intros [selected|] placeholder; cbn; [|done]. by case_bool_decide.
Qed.

(** C5. A block of the starter type contributes no handle, whatever its
    [outputs] holds: the list is the one computed without the block, and
    no handle of the list is of the starter type. *)
Theorem starter_contributes_nothing
    (workflowId : option string) (before after : list Block.t) (block : Block.t) :
  Block.type block = "starter" →
  workflowOutputs workflowId (before ++ block :: after)
  = workflowOutputs workflowId (before ++ after)
  ∧ ∀ output, output ∈ workflowOutputs workflowId (before ++ block :: after) →
      Output.blockType output ≠ "starter".
Proof.
  intros Hstarter. split.
  - rewrite !workflowOutputs_app, (workflowOutputs_cons _ block). f_equal.
    destruct (isSet workflowId) eqn:Hset.
    + rewrite (workflowOutputs_set _ [block]) by done. cbn.
      unfold processBlock. by rewrite bool_decide_eq_true_2.
    + by rewrite (workflowOutputs_unset _ [block]).
  - intros output (owner & keys & _ & Htype & ->)%elem_of_workflowOutputs. done.
Qed.

Lemma starter_contributes_nothing_witness :
  Block.type start = "starter"
  ∧ workflowOutputs (Some "wf") ([nested] ++ start :: [agent1])
    = workflowOutputs (Some "wf") ([nested] ++ [agent1]).
Proof.
  split; [reflexivity|].
  exact (proj1 (starter_contributes_nothing (Some "wf") [nested] [agent1] start eq_refl)).
Defined.

(** C1 as amended. When a workflow identifier is set, a block that is not
    of the starter type and whose [outputs] is an object with a [response]
    mapping contributes exactly the handles of the leaves under that
    mapping, one per leaf in depth-first order, each with the dot-joined
    key sequence from [response] to the leaf as its path, and nothing
    else. *)
Theorem leaves_give_handles
    (workflowId : option string) (before after : list Block.t) (block : Block.t)
    (props response : list (string * JsValue)) :
  isSet workflowId = true →
  Block.type block ≠ "starter" →
  Block.outputs block = JObject props →
  getProp props "response" = JObject response →
  workflowOutputs workflowId (before ++ block :: after)
  = workflowOutputs workflowId before
    ++ (handleAt block <$> (cons "response" <$> leafPaths (JObject response)))
    ++ workflowOutputs workflowId after
  ∧ Forall2 (λ keys output, Output.path output = dotJoin ("response" :: keys))
      (leafPaths (JObject response))
      (handleAt block <$> (cons "response" <$> leafPaths (JObject response))).
Proof.
  intros Hset Htype Houtputs Hresponse. split.
  - rewrite workflowOutputs_app, (workflowOutputs_cons _ block). do 2 f_equal.
    rewrite (workflowOutputs_set _ [block]) by done. cbn.
    rewrite processBlock_contribution, app_nil_l, app_nil_r.
    rewrite bool_decide_eq_false_2 by done.
    unfold handlesOf. by rewrite Houtputs, Hresponse.
  - rewrite <- list_fmap_compose. apply Forall2_fmap_r, Forall_Forall2_diag.
    by apply Forall_forall.
Qed.

Lemma leaves_give_handles_witness :
  workflowOutputs (Some "wf") ([start] ++ nested :: [agent1])
  = workflowOutputs (Some "wf") [start]
    ++ (handleAt nested <$>
          [ ["response"; "result"]; ["response"; "usage"; "tokens"];
            ["response"; "usage"; "cost"]; ["response"; "a.b"] ])
    ++ workflowOutputs (Some "wf") [agent1].
Proof.
  refine (proj1 (leaves_give_handles (Some "wf") [start] [agent1] nested _ _
                   eq_refl _ eq_refl eq_refl)).
  by vm_compute.
Defined.

(** The paths of the handles of [nested]. *)
Example nested_paths :
  Output.path <$> workflowOutputs (Some "wf") [nested]
  = ["response.result"; "response.usage.tokens"; "response.usage.cost"; "response.a.b"].
Proof. reflexivity. Qed.

(** C1 as stated fails: the leaf under the [response] mapping of a starter
    block has no handle although a workflow identifier is set, and without
    a workflow identifier the leaf of a block that is not the starter has
    none either. *)
Lemma leaves_without_handles :
  ¬ (∀ (blocks : list Block.t) (block : Block.t) props response keys,
       block ∈ blocks →
       Block.outputs block = JObject props →
       getProp props "response" = JObject response →
       keys ∈ leafPaths (JObject response) →
       ∃ output, output ∈ workflowOutputs (Some "wf") blocks
                 ∧ Output.blockId output = Block.id block
                 ∧ Output.path output = dotJoin ("response" :: keys))
  ∧ ¬ (∀ (workflowId : option string) (blocks : list Block.t) (block : Block.t)
         props response keys,
       block ∈ blocks →
       Block.type block ≠ "starter" →
       Block.outputs block = JObject props →
       getProp props "response" = JObject response →
       keys ∈ leafPaths (JObject response) →
       ∃ output, output ∈ workflowOutputs workflowId blocks
                 ∧ Output.blockId output = Block.id block
                 ∧ Output.path output = dotJoin ("response" :: keys)).
Proof.
  split.
  - intros Hclaim.
    destruct (Hclaim [start] start _ _ ["text"] ltac:(by left) eq_refl eq_refl
                ltac:(by left)) as (output & Hin & _).
    by apply elem_of_nil in Hin.
  - intros Hclaim.
    destruct (Hclaim None [agent1] agent1 _ _ ["text"] ltac:(by left) ltac:(done)
                eq_refl eq_refl ltac:(by left)) as (output & Hin & _).
    by apply elem_of_nil in Hin.
Qed.

(** X4. A block that is not the starter contributes the handles of the leaves
    under [outputs.response] when that value is truthy, and nothing when
    [outputs] is not an object or [response] is absent or falsy ([null],
    [0], [NaN], the empty string, [false]). *)
Theorem response_gate (workflowId : option string) (block : Block.t) :
  isSet workflowId = true →
  Block.type block ≠ "starter" →
  workflowOutputs workflowId [block]
  = match Block.outputs block with
    | JObject props =>
        if truthy (getProp props "response")
        then handleAt block <$> (cons "response" <$> leafPaths (getProp props "response"))
        else []
    | _ => []
    end.
Proof.
  intros Hset Htype. rewrite workflowOutputs_set by done. cbn.
  rewrite processBlock_contribution, app_nil_l, app_nil_r.
  rewrite bool_decide_eq_false_2 by done. unfold handlesOf.
  by destruct (Block.outputs block).
Qed.

Lemma response_gate_witness :
  workflowOutputs (Some "wf") [plainResponse] = [handleAt plainResponse ["response"]]
  ∧ workflowOutputs (Some "wf") [zeroResponse] = [].
Proof.
  split.
  - apply (response_gate (Some "wf") plainResponse eq_refl). by vm_compute.
  - apply (response_gate (Some "wf") zeroResponse eq_refl). by vm_compute.
Defined.

End handles.

(* ===================================================================== *)
(** * Identifiers and the selected handle *)
(* ===================================================================== *)

Section identifiers.
Import OutputSelect Reference Examples.
Implicit Types s t p q : string.

Lemma noUnderscore_split s t p q :
  noUnderscore s = true → noUnderscore t = true →
  s +:+ "_" +:+ p = t +:+ "_" +:+ q → s = t ∧ p = q.
Proof.
  revert t. induction s as [|c s IH]; intros [|d t] Hs Ht Heq.
  - by injection Heq.
  - rewrite append_nil_l, append_cons in Heq. injection Heq as <- _.
    cbn in Ht. by rewrite N.eqb_refl in Ht.
  - rewrite append_nil_l, append_cons in Heq. injection Heq as -> _.
    cbn in Hs. by rewrite N.eqb_refl in Hs.
  - rewrite !append_cons in Heq. injection Heq as -> Heq.
    cbn in Hs, Ht. apply andb_prop in Hs as [_ Hs]. apply andb_prop in Ht as [_ Ht].
    by destruct (IH t Hs Ht Heq) as [-> ->].
Qed.

(** The fields of a handle of the list are tied to each other the way
    [addOutput] builds them. *)
Lemma workflowOutputs_fields workflowId blocks output :
  output ∈ workflowOutputs workflowId blocks →
  Output.id output = Output.blockId output +:+ "_" +:+ Output.path output
  ∧ Output.label output
    = normalizedName (Output.blockName output) +:+ "." +:+ Output.path output
  ∧ ∃ block, block ∈ blocks ∧ Output.blockId output = Block.id block.
Proof.
  intros (block & keys & Hblock & _ & ->)%elem_of_workflowOutputs.
  repeat split; eauto.
Qed.

Lemma workflowOutputs_id_nonempty workflowId blocks output :
  output ∈ workflowOutputs workflowId blocks → Output.id output ≠ "".
Proof.
  intros (Hid & _)%workflowOutputs_fields. rewrite Hid.
  intros [_ [=]]%append_eq_nil.
Qed.

(** C6 as amended. When no block identifier holds an underscore, two
    handles of the list with distinct (block id, path) pairs have distinct
    identifiers. *)
Theorem identifiers_distinct
    (workflowId : option string) (blocks : list Block.t) (first second : Output.t) :
  (∀ block, block ∈ blocks → noUnderscore (Block.id block) = true) →
  first ∈ workflowOutputs workflowId blocks →
  second ∈ workflowOutputs workflowId blocks →
  (Output.blockId first, Output.path first)
  ≠ (Output.blockId second, Output.path second) →
  Output.id first ≠ Output.id second.
Proof.
  intros Hids (Hid1 & _ & block1 & Hin1 & Hblock1)%workflowOutputs_fields
    (Hid2 & _ & block2 & Hin2 & Hblock2)%workflowOutputs_fields Hpairs Heq.
  rewrite Hid1, Hid2 in Heq.
  apply noUnderscore_split in Heq as [Hb Hp].
  - apply Hpairs. by rewrite Hb, Hp.
  - rewrite Hblock1. auto.
  - rewrite Hblock2. auto.
Qed.

Lemma identifiers_distinct_witness :
  Output.id (handleAt nested ["response"; "result"])
  ≠ Output.id (handleAt agent1 ["response"; "text"]).
Proof.
  apply (identifiers_distinct (Some "wf") [nested; agent1]).
  - intros block Hin. repeat (apply elem_of_cons in Hin as [->|Hin]; [reflexivity|]).
    by apply elem_of_nil in Hin.
  - vm_compute. by left.
  - vm_compute. do 4 right. by left.
  - by vm_compute.
Defined.

(** C6 as stated fails: the handles of [shortId] and [longId] differ in
    block id and in path and have the same identifier. *)
Lemma identifiers_collide :
  ∃ first second,
    first ∈ workflowOutputs (Some "wf") [shortId; longId]
    ∧ second ∈ workflowOutputs (Some "wf") [shortId; longId]
    ∧ (Output.blockId first, Output.path first)
      ≠ (Output.blockId second, Output.path second)
    ∧ Output.id first = Output.id second.
Proof.
  exists (handleAt shortId ["response"; "x_response"; "y"]),
         (handleAt longId ["response"; "y"]).
  split; [vm_compute; by left|].
  split; [vm_compute; right; by left|].
  split; [by vm_compute | reflexivity].
Qed.

(** The identifier is absent exactly when [find] returns nothing. *)
Lemma find_absent (selected : string) (outputs : list Output.t) :
  List.find (λ o, bool_decide (Output.id o = selected)) outputs = None
  ↔ selected ∉ Output.id <$> outputs.
Proof.
  induction outputs as [|output outputs IH]; cbn.
  - split; [intros _ Hin; by apply elem_of_nil in Hin | done].
  - case_bool_decide as Hid.
    + split; [done|]. intros Hnot. destruct Hnot. rewrite Hid. by left.
    + rewrite IH, not_elem_of_cons. split; [by intros ?; split; [congruence|] | by intros [_ ?]].
Qed.

(** C8. With the handle list of any blocks: when no identifier is
    selected, or the selected one is the identifier of no handle, the
    display name is the placeholder; when it is the identifier of a
    handle, the display name is the label of the first such handle.  The
    computation is total, so nothing is raised. *)
Theorem selected_display_name
    (workflowId selectedOutput : option string) (blocks : list Block.t)
    (placeholder : string) :
  let handles := workflowOutputs workflowId blocks in
  let shown := selectedOutputDisplayName selectedOutput handles placeholder in
  match selectedOutput with
  | None => shown = placeholder
  | Some selected =>
      (selected ∉ Output.id <$> handles → shown = placeholder)
      ∧ (selected ∈ Output.id <$> handles →
         ∃ output,
           List.find (λ o, bool_decide (Output.id o = selected)) handles = Some output
           ∧ output ∈ handles
           ∧ Output.id output = selected
           ∧ shown = Output.label output)
  end.
Proof.
  cbn zeta. unfold selectedOutputDisplayName.
  destruct selectedOutput as [selected|]; [|done].
  destruct (List.find _ _) as [output|] eqn:Hfind.
  - pose proof Hfind as [Hin%list_elem_of_In Hid%bool_decide_eq_true]%find_some.
    rewrite bool_decide_eq_false_2.
    2:{ intros ->. by apply (workflowOutputs_id_nonempty _ _ _ Hin). }
    destruct (workflowOutputs_fields _ _ _ Hin) as (_ & <- & _).
    split; [|by eauto].
    intros Habsent. destruct Habsent. rewrite <- Hid. by apply list_elem_of_fmap_2.
  - apply find_absent in Hfind. split; [by case_bool_decide|done].
Qed.

Example selected_present :
  selectedOutputDisplayName (Some "fn_response.usage.tokens")
    (workflowOutputs (Some "wf") [start; nested; agent1]) "Select output source"
  = "myfunction.response.usage.tokens".
Proof. reflexivity. Qed.

Example selected_absent :
  selectedOutputDisplayName (Some "deleted_response.text")
    (workflowOutputs (Some "wf") [start; nested; agent1]) "Select output source"
  = "Select output source".
Proof. reflexivity. Qed.

End identifiers.

(* ===================================================================== *)
(** * The settings navigation *)
(* ===================================================================== *)

Section navigation.
Import SettingsNavigation.

Lemma isVisible_gates isDev isTeam item :
  isVisible isDev isTeam item = true
  ↔ ¬ devGateFires isDev item ∧ ¬ teamGateFires isTeam item.
Proof.
  unfold isVisible, devGateFires, teamGateFires, isTrue.
  destruct (hideInDev item) as [[]|], isDev, (requiresTeam item) as [[]|],
    isTeam as [[]|]; cbn; intuition congruence.
Qed.

(** C7. The filter keeps exactly the items of the static list for which
    neither gate fires, in the order of the static list.  The dev gate
    fires for an item with [hideInDev] exactly when the dev flag is true,
    the team gate fires for an item with [requiresTeam] exactly when the
    team flag is false; so an item behind the dev gate alone is shown
    exactly when the dev flag is false, and an item shown has the team
    flag true whenever it requires a team. *)
Theorem navigation_filter (isDev : bool) (isTeam : option bool) :
  (∀ item, item ∈ navigationItems isDev isTeam
           ↔ item ∈ allNavigationItems
             ∧ ¬ devGateFires isDev item ∧ ¬ teamGateFires isTeam item)
  ∧ navigationItems isDev isTeam `sublist_of` allNavigationItems
  ∧ NoDup allNavigationItems
  ∧ (∀ item, item ∈ allNavigationItems →
       (hideInDev item = Some true → isDev = true →
          item ∉ navigationItems isDev isTeam)
       ∧ (hideInDev item = Some true → requiresTeam item ≠ Some true →
          isDev = false → item ∈ navigationItems isDev isTeam)
       ∧ (requiresTeam item = Some true → isTrue isTeam = false →
          item ∉ navigationItems isDev isTeam)
       ∧ (requiresTeam item = Some true → isTrue isTeam = true →
          (item ∈ navigationItems isDev isTeam ↔ ¬ devGateFires isDev item))).
Proof.
  assert (Hmem : ∀ item, item ∈ navigationItems isDev isTeam
           ↔ item ∈ allNavigationItems
             ∧ ¬ devGateFires isDev item ∧ ¬ teamGateFires isTeam item).
  { intros item. unfold navigationItems.
    rewrite list_elem_of_In, filter_In, <- list_elem_of_In, isVisible_gates. tauto. }
  split; [exact Hmem|]. split; [|split].
  - unfold navigationItems. generalize allNavigationItems.
    induction l as [|item l IH]; cbn; [done|].
    destruct (isVisible _ _ item); by constructor.
  - by apply (bool_decide_unpack (NoDup allNavigationItems)).
  - intros item Hin. rewrite !Hmem. unfold devGateFires, teamGateFires.
    destruct (hideInDev item) as [[]|], (requiresTeam item) as [[]|], isDev,
      (isTrue isTeam); intuition congruence.
Qed.

(** The three lists the filter can produce. *)
Example navigation_in_dev (isTeam : option bool) :
  id <$> navigationItems true isTeam
  = [general; environment; account; credentials; apikeys].
Proof. by destruct isTeam as [[]|]. Qed.

Example navigation_without_team :
  id <$> navigationItems false None
  = [general; environment; account; credentials; apikeys; subscription].
Proof. reflexivity. Qed.

Example navigation_with_team :
  id <$> navigationItems false (Some true)
  = [general; environment; account; credentials; apikeys; subscription; team].
Proof. reflexivity. Qed.

End navigation.

(* ===================================================================== *)
(** * Records *)
(* ===================================================================== *)

Section records.
Context {V : Type}.
Implicit Types (r : JsRecord V) (key : string) (v : V).

Lemma ownGet_ownSet_eq r key v : ownGet (ownSet r key v) key = Some v.
Proof.
  induction r as [|[k w] r IH]; cbn; repeat case_decide; cbn;
    repeat case_decide; try done.
Qed.

Lemma ownGet_ownSet_ne r key key' v :
  key ≠ key' → ownGet (ownSet r key v) key' = ownGet r key'.
Proof.
  intros Hne. induction r as [|[k w] r IH]; cbn; repeat case_decide; cbn;
    repeat case_decide; try done; congruence.
Qed.

Lemma ownGet_None r key : ownGet r key = None ↔ key ∉ r.*1.
Proof.
  induction r as [|[k w] r IH]; cbn.
  - split; [intros _ Hin; by apply elem_of_nil in Hin | done].
  - rewrite not_elem_of_cons. case_decide; [|rewrite IH]; split; try done.
    + by intros [? _].
    + by intros [_ ?].
Qed.

Lemma ownGet_Some_elem r key v : ownGet r key = Some v → (key, v) ∈ r.
Proof.
  induction r as [|[k w] r IH]; cbn; [done|].
  case_decide; [intros [= ->]; subst; by left | right; auto].
Qed.

Lemma elem_key r key v : (key, v) ∈ r → key ∈ r.*1.
Proof. intros Hin. by apply (list_elem_of_fmap_2 fst r (key, v)). Qed.

Lemma ownGet_Some_key r key v : ownGet r key = Some v → key ∈ r.*1.
Proof. intros Hget%ownGet_Some_elem. by eapply elem_key. Qed.

(** A new key goes last, an existing one keeps its place. *)
Lemma ownSet_new r key v : ownGet r key = None → ownSet r key v = r ++ [(key, v)].
Proof.
  induction r as [|[k w] r IH]; cbn; [done|].
  case_decide; [done|]. intros Hnone. by rewrite IH.
Qed.

Lemma ownSet_keys_old r key v w :
  ownGet r key = Some w → (ownSet r key v).*1 = r.*1.
Proof.
  induction r as [|[k u] r IH]; cbn; [done|].
  case_decide; [by subst|]. intros Hsome. cbn. by rewrite IH.
Qed.

End records.

(* ===================================================================== *)
(** * The breadth-first loop *)
(* ===================================================================== *)

Section bfs.
Import OutputSelect Reference Examples.
Implicit Types (adjList : JsRecord (list string)) (state : BfsState).

Lemma pending_mono adjList (seen : gset string) id :
  pending adjList ({[id]} ∪ seen) ≤ pending adjList seen.
Proof.
  induction adjList as [|[source targets] rest IH]; cbn; [done|].
  repeat case_bool_decide; try lia. set_solver.
Qed.

Lemma pending_expand adjList (seen : gset string) id targets :
  ownGet adjList id = Some targets → id ∉ seen →
  pending adjList ({[id]} ∪ seen) + length targets ≤ pending adjList seen.
Proof.
  induction adjList as [|[source ts] rest IH]; cbn; [done|].
  case_decide as Hsource.
  - intros [= ->] Hnew. subst source.
    rewrite bool_decide_eq_true_2 by set_solver.
    rewrite bool_decide_eq_false_2 by done.
    pose proof (pending_mono rest seen id). lia.
  - intros Hget Hnew. specialize (IH Hget Hnew).
    repeat case_bool_decide; try lia. set_solver.
Qed.

Lemma get_Own adjList id targets :
  get adjList id = Own targets ↔ ownGet adjList id = Some targets.
Proof.
  unfold get. destruct (ownGet adjList id); [|case_bool_decide]; split; congruence.
Qed.

(** Each iteration uses up one unit. *)
Lemma bfsStep_remaining adjList state state' :
  bfsStep adjList state = Next state' →
  remaining adjList state' < remaining adjList state.
Proof.
  unfold bfsStep, remaining. destruct state as [[|[id distance] rest] seen dists]; cbn; [done|].
  case_bool_decide as Hseen; [intros [= <-]; cbn; lia|].
  destruct (get adjList id) as [targets| |] eqn:Hget; intros [= <-]; cbn.
  - apply get_Own in Hget. rewrite length_app, length_fmap.
    pose proof (pending_expand adjList seen id targets Hget Hseen). lia.
  - pose proof (pending_mono adjList seen id). lia.
Qed.

Lemma bfsStep_empty adjList state :
  queue state = [] → bfsStep adjList state = Exit.
Proof. unfold bfsStep. by intros ->. Qed.

(** A bound that covers the remaining iterations lets the loop finish. *)
Lemma bfsLoop_finishes bound adjList state :
  remaining adjList state ≤ bound → bfsLoop bound adjList state ≠ Unfinished.
Proof.
  revert state. induction bound as [|bound IH]; intros state Hbound; cbn.
  - rewrite bfsStep_empty; [done|].
    unfold remaining in Hbound. destruct (queue state); [done | cbn in Hbound; lia].
  - destruct (bfsStep adjList state) as [|state'|e] eqn:Hstep; [done| |done].
    apply IH. apply bfsStep_remaining in Hstep. lia.
Qed.

(** The loop stops: some state within the bound exits or raises. *)
Lemma bfsAfter_stops bound adjList state :
  remaining adjList state ≤ bound →
  ∃ n final, n ≤ bound ∧ bfsAfter n adjList state = Some final
             ∧ (bfsStep adjList final = Exit ∨ ∃ e, bfsStep adjList final = Raise e).
Proof.
  revert state. induction bound as [|bound IH]; intros state Hbound.
  - exists 0, state. split; [done|]. split; [done|]. left. apply bfsStep_empty.
    unfold remaining in Hbound. destruct (queue state); [done | cbn in Hbound; lia].
  - destruct (bfsStep adjList state) as [|state'|e] eqn:Hstep.
    + exists 0, state. eauto with lia.
    + destruct (IH state') as (n & final & Hn & Hafter & Hstop).
      { apply bfsStep_remaining in Hstep. lia. }
      exists (S n), final. split; [lia|]. cbn. by rewrite Hstep.
    + exists 0, state. split; [lia|]. eauto.
Qed.

(** ** The adjacency list holds every edge once *)

Lemma pending_app adjList adjList' (seen : gset string) :
  pending (adjList ++ adjList') seen = pending adjList seen + pending adjList' seen.
Proof.
  induction adjList as [|[source targets] rest IH]; cbn; [done|]. rewrite IH. lia.
Qed.

Lemma targetCount_ownSet adjList source targets targets' :
  ownGet adjList source = Some targets →
  targetCount (ownSet adjList source targets') + length targets
  = targetCount adjList + length targets'.
Proof.
  unfold targetCount. induction adjList as [|[k ts] rest IH]; cbn; [done|].
  case_decide.
  - intros [= ->]. cbn. rewrite !bool_decide_eq_false_2 by set_solver. lia.
  - intros Hget. cbn. rewrite !bool_decide_eq_false_2 by set_solver.
    specialize (IH Hget). lia.
Qed.

Lemma addEdge_targetCount adjList edge adjList' :
  addEdge adjList edge = Normal adjList' →
  targetCount adjList' = S (targetCount adjList).
Proof.
  unfold addEdge.
  destruct (get adjList (Edge.source edge)) as [targets| |] eqn:Hget.
  - rewrite Hget. intros [= <-]. apply get_Own in Hget.
    pose proof (targetCount_ownSet adjList _ targets
                  (targets ++ [Edge.target edge]) Hget) as Hcount.
    rewrite length_app in Hcount. cbn in Hcount. lia.
  - by rewrite Hget.
  - unfold get at 1. rewrite ownGet_ownSet_eq. intros [= <-].
    assert (ownGet adjList (Edge.source edge) = None) as Hnone.
    { unfold get in Hget. by destruct (ownGet adjList (Edge.source edge)). }
    pose proof (targetCount_ownSet (ownSet adjList (Edge.source edge) []) _ []
                  ([] ++ [Edge.target edge]) (ownGet_ownSet_eq _ _ _)) as Hcount.
    rewrite (ownSet_new adjList) in Hcount |- * by done.
    unfold targetCount in *. rewrite pending_app in Hcount. cbn in Hcount.
    rewrite bool_decide_eq_false_2 in Hcount by set_solver. cbn in Hcount. lia.
Qed.

Lemma forEach_addEdge_targetCount edges adjList adjList' :
  forEach addEdge edges adjList = Normal adjList' →
  targetCount adjList' = length edges + targetCount adjList.
Proof.
  revert adjList. induction edges as [|edge edges IH]; intros adjList; cbn.
  - by intros [= ->].
  - destruct (addEdge adjList edge) as [adjList1| |] eqn:Hadd; cbn; [|done..].
    intros Hrest. rewrite (IH _ Hrest), (addEdge_targetCount _ _ _ Hadd). lia.
Qed.

Lemma buildAdjList_targetCount edges adjList :
  buildAdjList edges = Normal adjList → targetCount adjList = length edges.
Proof.
  intros Hbuild%forEach_addEdge_targetCount. rewrite Hbuild. cbn. lia.
Qed.

Lemma remaining_start edges adjList starterBlockId :
  buildAdjList edges = Normal adjList →
  remaining adjList (bfsStart starterBlockId) = S (length edges).
Proof.
  intros Hbuild%buildAdjList_targetCount. unfold remaining, bfsStart. cbn.
  by rewrite <- Hbuild.
Qed.

(** ** An id is expanded once *)

Lemma bfsStep_visited adjList state state' :
  bfsStep adjList state = Next state' →
  visited state ⊆ visited state'
  ∧ ∀ id, expands state = Some id → id ∈ visited state'.
Proof.
  unfold bfsStep, expands. destruct state as [[|[id distance] rest] seen dists]; cbn; [done|].
  case_bool_decide as Hseen; [intros [= <-]; by cbn|].
  destruct (get adjList id); intros [= <-]; cbn; split; try set_solver.
Qed.

(** Only an expansion touches [visited] and [blockDistances]: it adds the
    id to the set and stores the distance queued with it. *)
Lemma bfsStep_updates adjList state state' :
  bfsStep adjList state = Next state' →
  match expands state with
  | Some id =>
      visited state' = {[id]} ∪ visited state
      ∧ ∃ distance, head (queue state) = Some (id, distance)
                    ∧ blockDistances state' = ownSet (blockDistances state) id distance
  | None =>
      visited state' = visited state ∧ blockDistances state' = blockDistances state
  end.
Proof.
  unfold bfsStep, expands. destruct state as [[|[id distance] rest] seen dists]; cbn; [done|].
  case_bool_decide as Hseen; [by intros [= <-]|].
  destruct (get adjList id); intros [= <-]; cbn; eauto.
Qed.

Lemma bfsAfter_visited n adjList state state' :
  bfsAfter n adjList state = Some state' → visited state ⊆ visited state'.
Proof.
  revert state. induction n as [|n IH]; intros state; cbn; [by intros [= ->]|].
  destruct (bfsStep adjList state) as [|state1|] eqn:Hstep; [done| |done].
  intros Hafter%IH. apply bfsStep_visited in Hstep as [Hsub _]. set_solver.
Qed.

Lemma bfsAfter_add n m adjList state :
  bfsAfter (n + m) adjList state = bfsAfter n adjList state ≫= bfsAfter m adjList.
Proof.
  revert state. induction n as [|n IH]; intros state; cbn; [done|].
  destruct (bfsStep adjList state); cbn; auto.
Qed.

Lemma expanded_once adjList state i j si sj id :
  i < j →
  bfsAfter i adjList state = Some si →
  bfsAfter j adjList state = Some sj →
  expands si = Some id → expands sj ≠ Some id.
Proof.
  intros Hlt Hi Hj Hexp.
  replace j with (i + S (j - S i)) in Hj by lia.
  rewrite bfsAfter_add, Hi in Hj. cbn in Hj.
  destruct (bfsStep adjList si) as [|si'|] eqn:Hstep; [done| |done].
  apply bfsStep_visited in Hstep as [_ Hin]. specialize (Hin id Hexp).
  apply bfsAfter_visited in Hj.
  unfold expands. destruct (queue sj) as [|[id' ?] ?]; [done|].
  case_bool_decide; [done|]. intros [= ->]. set_solver.
Qed.

End bfs.

Section bfs_claim.
Import OutputSelect Reference Examples.

Lemma computeDistances_finishes blocks edges :
  computeDistances blocks edges ≠ Unfinished.
Proof.
  unfold computeDistances. destruct (isSet _); [|done].
  destruct (buildAdjList edges) as [adjList| |] eqn:Hbuild; cbn [bind]; [|done|].
  - pose proof (bfsLoop_finishes (S (length edges)) adjList
                  (bfsStart (default "" (starterBlockId blocks)))) as Hloop.
    rewrite (remaining_start edges) in Hloop by done. specialize (Hloop (le_n _)).
    by destruct (bfsLoop _ _ _).
  - (* the adjacency list is built by a loop over the array *)
    exfalso. revert Hbuild. unfold buildAdjList. generalize (@nil (string * list string)).
    induction edges as [|edge edges IH]; intros adjList; cbn; [done|].
    destruct (addEdge adjList edge) as [adjList'| |] eqn:Hadd; cbn; [by apply IH|done|].
    unfold addEdge in Hadd. by repeat destruct (get _ _) in Hadd.
Qed.

(** C3. The distance computation ends for every array of edges, cycles
    included: the loop leaves within [length edges + 1] iterations of its
    body (by the exit test, or by a raise), so the bound of the model is
    never what stops it.  An id is expanded when it passes the [visited]
    test; it is then added to the set and given a distance, nothing else
    changes the set or the distances, and an id that was expanded is never
    expanded again. *)
Theorem bfs_terminates (edges : list Edge.t) :
  (∀ blocks, computeDistances blocks edges ≠ Unfinished)
  ∧ ∀ adjList starterBlockId,
      buildAdjList edges = Normal adjList →
      (∃ n final,
          n ≤ S (length edges)
          ∧ bfsAfter n adjList (bfsStart starterBlockId) = Some final
          ∧ (bfsStep adjList final = Exit ∨ ∃ e, bfsStep adjList final = Raise e))
      ∧ (∀ i j si sj id,
           i < j →
           bfsAfter i adjList (bfsStart starterBlockId) = Some si →
           bfsAfter j adjList (bfsStart starterBlockId) = Some sj →
           expands si = Some id → expands sj ≠ Some id)
      ∧ ∀ state state',
          bfsStep adjList state = Next state' →
          match expands state with
          | Some id =>
              visited state' = {[id]} ∪ visited state
              ∧ ∃ distance,
                  head (queue state) = Some (id, distance)
                  ∧ blockDistances state' = ownSet (blockDistances state) id distance
          | None =>
              visited state' = visited state
              ∧ blockDistances state' = blockDistances state
          end.
Proof.
  split; [intros blocks; apply computeDistances_finishes|].
  intros adjList starterBlockId Hbuild. split; [|split].
  - apply bfsAfter_stops. by rewrite (remaining_start edges).
  - intros i j si sj id. apply expanded_once.
  - apply bfsStep_updates.
Qed.

Lemma bfs_terminates_witness :
  computeDistances [cycleStart; cycleEnd] cycle ≠ Unfinished
  ∧ buildAdjList cycle = Normal [("A", ["B"]); ("B", ["A"])]
  ∧ ∃ n final,
      n ≤ 3
      ∧ bfsAfter n [("A", ["B"]); ("B", ["A"])] (bfsStart "A") = Some final
      ∧ (bfsStep [("A", ["B"]); ("B", ["A"])] final = Exit
         ∨ ∃ e, bfsStep [("A", ["B"]); ("B", ["A"])] final = Raise e).
Proof.
  split; [apply (proj1 (bfs_terminates cycle))|].
  split; [reflexivity|].
  apply (proj1 (proj2 (bfs_terminates cycle) _ "A" eq_refl)).
Defined.

(** The distances of the cycle: each id once. *)
Example cycle_distances :
  computeDistances [cycleStart; cycleEnd] cycle = Normal [("A", 0); ("B", 1)].
Proof. reflexivity. Qed.

End bfs_claim.

(* ===================================================================== *)
(** * Enumeration order and sorting *)
(* ===================================================================== *)

Section entries.
Context {V : Type}.
Implicit Types (r : JsRecord V) (e : string * V).

Lemma insertByIndex_Permutation e (l : list (string * V)) :
  insertByIndex e l ≡ₚ e :: l.
Proof.
  induction l as [|e' l IH]; cbn; [done|].
  destruct (_ <=? _)%N; [done|]. by rewrite IH, Permutation_swap.
Qed.

Lemma foldr_insertByIndex_Permutation (l : list (string * V)) :
  foldr insertByIndex [] l ≡ₚ l.
Proof.
  induction l as [|e l IH]; cbn; [done|].
  by rewrite insertByIndex_Permutation, IH.
Qed.

Lemma filter_partition_Permutation (f : string * V → bool) (l : list (string * V)) :
  List.filter f l ++ List.filter (λ e, negb (f e)) l ≡ₚ l.
Proof.
  induction l as [|e l IH]; cbn; [done|].
  destruct (f e); cbn; [by rewrite IH|].
  by rewrite <- Permutation_middle, IH.
Qed.

(** Enumeration loses and adds nothing. *)
Lemma Object_entries_Permutation r : Object_entries r ≡ₚ r.
Proof.
  unfold Object_entries. rewrite foldr_insertByIndex_Permutation.
  apply filter_partition_Permutation.
Qed.

(** Without array-index keys, enumeration follows creation order. *)
Lemma Object_entries_ordinary r :
  Forall (λ key, isArrayIndex key = false) r.*1 → Object_entries r = r.
Proof.
  unfold Object_entries. induction r as [|[key v] r IH]; cbn; [done|].
  intros [Hkey Hrest]%Forall_cons. rewrite Hkey. cbn.
  specialize (IH Hrest). destruct (List.filter _ r) eqn:Hfilter.
  - cbn in *. by rewrite IH.
  - exfalso. assert (p ∈ List.filter (λ e, isArrayIndex e.1) r) as Hin
      by (rewrite Hfilter; by left).
    apply list_elem_of_In, filter_In in Hin as [Hin%list_elem_of_In Hindex].
    rewrite Forall_forall in Hrest.
    rewrite (Hrest p.1) in Hindex; [done|]. by apply list_elem_of_fmap_2.
Qed.

End entries.

Section sort.
Context {A : Type} (key : A → nat) (compareFn : A → A → Z).
Implicit Types (x y : A) (l : list A).

Lemma insertSorted_Permutation x l : insertSorted compareFn x l ≡ₚ x :: l.
Proof.
  induction l as [|y l IH]; cbn; [done|].
  destruct (_ <=? _)%Z; [done|]. by rewrite IH, Permutation_swap.
Qed.

Lemma Array_sort_Permutation l : Array_sort compareFn l ≡ₚ l.
Proof.
  induction l as [|x l IH]; [done|].
  change (Array_sort compareFn (x :: l))
    with (insertSorted compareFn x (Array_sort compareFn l)).
  by rewrite insertSorted_Permutation, IH.
Qed.




Section consistent.
(** On the elements that satisfy [numeric], the comparator orders by
    descending key. *)
Context (numeric : A → Prop).
Hypothesis compareFn_key :
  ∀ x y, numeric x → numeric y →
         (compareFn x y <=? 0)%Z = bool_decide (key y ≤ key x).



End consistent.
End sort.

(* ===================================================================== *)
(** * Grouping by block name *)
(* ===================================================================== *)

Section record_updates.
Context {V : Type}.
Implicit Types (r : JsRecord V) (key : string) (v : V).

Lemma ownSet_ownSet r key v v' : ownSet (ownSet r key v) key v' = ownSet r key v'.
Proof.
  induction r as [|[k w] r IH]; cbn; repeat case_decide; cbn;
    repeat case_decide; try done. by rewrite IH.
Qed.

Lemma ownGet_elem r key v : NoDup r.*1 → (key, v) ∈ r → ownGet r key = Some v.
Proof.
  induction r as [|[k w] r IH]; cbn; [by intros _ ?%elem_of_nil|].
  intros [Hk Hr]%NoDup_cons [[= -> ->]|Hin]%elem_of_cons.
  - by rewrite decide_True.
  - rewrite decide_False; [by apply IH|].
    intros ->. apply Hk. by eapply elem_key.
Qed.

(** Setting an existing property changes its entry, in place. *)
Lemma ownSet_replace r key v w :
  NoDup r.*1 → ownGet r key = Some w →
  ownSet r key v = (λ e, if decide (e.1 = key) then (key, v) else e) <$> r.
Proof.
  induction r as [|[k u] r IH]; cbn; [done|].
  intros [Hk Hr]%NoDup_cons. case_decide as Heq.
  - intros _. subst k. f_equal.
    rewrite <- (list_fmap_id r) at 1. apply list_fmap_ext.
    intros i e Hin%list_elem_of_lookup_2. rewrite decide_False; [done|].
    intros Heq. apply Hk. rewrite <- Heq. destruct e. by eapply elem_key.
  - intros Hget. by rewrite IH.
Qed.

End record_updates.

Section grouping.
Import OutputSelect Reference.
Implicit Types (groups : JsRecord (list Output.t)) (output : Output.t)
  (outputs : list Output.t) (name : string).

Lemma handlesNamed_cons name output outputs :
  handlesNamed name (output :: outputs)
  = if decide (Output.blockName output = name)
    then output :: handlesNamed name outputs else handlesNamed name outputs.
Proof. reflexivity. Qed.

Lemma handlesNamed_other name output outputs :
  Output.blockName output ≠ name →
  handlesNamed name (output :: outputs) = handlesNamed name outputs.
Proof. intros. by rewrite handlesNamed_cons, decide_False. Qed.

Lemma handlesNamed_same output outputs :
  handlesNamed (Output.blockName output) (output :: outputs)
  = output :: handlesNamed (Output.blockName output) outputs.
Proof. by rewrite handlesNamed_cons, decide_True. Qed.

Lemma elem_of_firstNames name outputs :
  name ∈ firstNames outputs ↔ ∃ output, output ∈ outputs ∧ Output.blockName output = name.
Proof.
  induction outputs as [|output outputs IH]; cbn.
  - split; [by intros ?%elem_of_nil | by intros (? & ?%elem_of_nil & _)].
  - rewrite elem_of_cons, list_elem_of_filter, IH. split.
    + intros [->|[_ (o & Hin & <-)]]; [exists output | exists o];
        (split; [|done]); [by left | by right].
    + intros (o & [->|Hin]%elem_of_cons & <-); [by left|].
      destruct (decide (Output.blockName o = Output.blockName output)); [by left|].
      right. eauto.
Qed.

Lemma NoDup_firstNames outputs : NoDup (firstNames outputs).
Proof.
  induction outputs as [|output outputs IH]; cbn; [constructor|].
  apply NoDup_cons. split; [|by apply NoDup_filter].
  rewrite list_elem_of_filter. by intros [? _].
Qed.

Lemma handlesNamed_nil name outputs :
  handlesNamed name outputs = [] ↔ name ∉ firstNames outputs.
Proof.
  rewrite elem_of_firstNames. unfold handlesNamed. split.
  - intros Hnil (output & Hin & Hname).
    by apply (filter_nil_not_elem_of _ _ output Hnil).
  - intros Hnone. induction outputs as [|output outputs IH]; [done|].
    rewrite filter_cons. case_decide as Hname.
    + destruct Hnone. exists output. split; [by left|done].
    + apply IH. intros (o & Hin & Ho). apply Hnone. exists o. split; [by right|done].
Qed.

Lemma firstOf_head name outputs :
  firstOf name outputs = head (handlesNamed name outputs).
Proof.
  unfold firstOf. induction outputs as [|output outputs IH]; [done|].
  rewrite handlesNamed_cons. cbn. case_bool_decide; [by rewrite decide_True|].
  by rewrite decide_False.
Qed.

(** ** One handle *)

Lemma groupOutput_existing groups output handles :
  ownGet groups (Output.blockName output) = Some handles →
  groupOutput groups output
  = Normal (ownSet groups (Output.blockName output) (handles ++ [output])).
Proof. intros Hget. unfold groupOutput, get. rewrite Hget. cbn. by rewrite Hget. Qed.

Lemma groupOutput_new groups output :
  ownGet groups (Output.blockName output) = None →
  Output.blockName output ∉ objectPrototypeKeys →
  groupOutput groups output = Normal (groups ++ [(Output.blockName output, [output])]).
Proof.
  intros Hget Hproto. unfold groupOutput, get. rewrite Hget.
  rewrite bool_decide_eq_false_2 by done. rewrite ownGet_ownSet_eq.
  by rewrite ownSet_ownSet, ownSet_new.
Qed.

Lemma groupOutput_inherited groups output :
  ownGet groups (Output.blockName output) = None →
  Output.blockName output ∈ objectPrototypeKeys →
  groupOutput groups output
  = Throw (TypeError "groups[output.blockName].push is not a function").
Proof.
  intros Hget Hproto. unfold groupOutput, get. rewrite Hget.
  rewrite bool_decide_eq_true_2 by done. cbn.
  by rewrite ?Hget, ?bool_decide_eq_true_2.
Qed.

(** ** The loop *)

Lemma merged_existing groups output outputs handles :
  NoDup groups.*1 →
  ownGet groups (Output.blockName output) = Some handles →
  merged (ownSet groups (Output.blockName output) (handles ++ [output])) outputs
  = merged groups (output :: outputs).
Proof.
  intros Hnodup Hget. unfold merged.
  pose proof (ownGet_Some_key _ _ _ Hget) as Hin.
  rewrite (ownSet_keys_old _ _ _ _ Hget). f_equal.
  - rewrite (ownSet_replace _ _ _ _ Hnodup Hget), <- list_fmap_compose.
    apply list_fmap_ext. intros i [name hs] Hentry%list_elem_of_lookup_2.
    unfold compose. cbn [fst snd]. case_decide as Hname; cbn [fst snd].
    + subst name. rewrite (ownGet_elem _ _ _ Hnodup Hentry) in Hget.
      injection Hget as ->. by rewrite handlesNamed_same, <- app_assoc.
    + by rewrite handlesNamed_other.
  - cbn [firstNames]. rewrite filter_cons_False by (by intros Hnot; apply Hnot).
    rewrite list_filter_filter_l.
    2:{ intros name Hname ->. by apply Hname. }
    apply list_fmap_ext. intros i name [Hname _]%list_elem_of_lookup_2%list_elem_of_filter.
    rewrite handlesNamed_other; [done|]. by intros <-.
Qed.

Lemma merged_new groups output outputs :
  ownGet groups (Output.blockName output) = None →
  merged (groups ++ [(Output.blockName output, [output])]) outputs
  = merged groups (output :: outputs).
Proof.
  intros Hget%ownGet_None. unfold merged.
  rewrite !fmap_app, <- app_assoc. f_equal.
  - apply list_fmap_ext. intros i [name hs] Hentry%list_elem_of_lookup_2. cbn [fst snd].
    rewrite handlesNamed_other; [done|].
    intros <-. apply Hget. by eapply elem_key.
  - cbn [firstNames fmap list_fmap fst snd app].
    rewrite filter_cons_True by done. cbn [fmap list_fmap].
    rewrite handlesNamed_same. f_equal.
    rewrite list_filter_filter.
    erewrite (list_filter_iff (λ name, name ∉ _ ++ _)).
    + apply list_fmap_ext.
      intros i name [[_ Hname] _]%list_elem_of_lookup_2%list_elem_of_filter.
      by rewrite handlesNamed_other.
    + intros name. cbn. rewrite elem_of_app, list_elem_of_singleton. tauto.
Qed.

(** The loop raises when a handle is named after a member of
    [Object.prototype], and otherwise extends [groups] in discovery
    order. *)
Lemma forEach_groupOutput outputs groups :
  NoDup groups.*1 →
  Forall (λ name, name ∉ objectPrototypeKeys) groups.*1 →
  forEach groupOutput outputs groups
  = if bool_decide (Exists (λ o, Output.blockName o ∈ objectPrototypeKeys) outputs)
    then Throw (TypeError "groups[output.blockName].push is not a function")
    else Normal (merged groups outputs).
Proof.
  revert groups. induction outputs as [|output outputs IH]; intros groups Hnodup Hkeys.
  - rewrite bool_decide_eq_false_2 by (by intros ?%Exists_nil). cbn. f_equal.
    unfold merged. cbn. rewrite app_nil_r. rewrite <- (list_fmap_id groups) at 1.
    apply list_fmap_ext. intros i [name hs] _. cbn. by rewrite app_nil_r.
  - cbn [forEach].
    destruct (ownGet groups (Output.blockName output)) as [handles|] eqn:Hget.
    + rewrite (groupOutput_existing _ _ _ Hget). cbn [bind]. rewrite IH.
      * rewrite (merged_existing _ _ _ _ Hnodup Hget).
        assert (Output.blockName output ∉ objectPrototypeKeys) as Hname.
        { rewrite Forall_forall in Hkeys. apply Hkeys. by eapply ownGet_Some_key. }
        assert (Exists (λ o, Output.blockName o ∈ objectPrototypeKeys) (output :: outputs)
                ↔ Exists (λ o, Output.blockName o ∈ objectPrototypeKeys) outputs) as Hiff
          by (rewrite Exists_cons; tauto).
        by rewrite (bool_decide_ext _ _ Hiff).
      * by rewrite (ownSet_keys_old _ _ _ _ Hget).
      * by rewrite (ownSet_keys_old _ _ _ _ Hget).
    + destruct (decide (Output.blockName output ∈ objectPrototypeKeys)) as [Hproto|Hproto].
      * rewrite (groupOutput_inherited _ _ Hget Hproto). cbn [bind].
        rewrite bool_decide_eq_true_2; [done|]. by left.
      * rewrite (groupOutput_new _ _ Hget Hproto). cbn [bind]. rewrite IH.
        -- rewrite (merged_new _ _ _ Hget).
           assert (Exists (λ o, Output.blockName o ∈ objectPrototypeKeys) (output :: outputs)
                   ↔ Exists (λ o, Output.blockName o ∈ objectPrototypeKeys) outputs) as Hiff
             by (rewrite Exists_cons; tauto).
           by rewrite (bool_decide_ext _ _ Hiff).
        -- rewrite fmap_app. apply NoDup_app. split; [done|]. split; [|apply NoDup_singleton].
           intros name Hin ->%list_elem_of_singleton. by apply ownGet_None in Hget.
        -- rewrite fmap_app. apply Forall_app. split; [done|]. by constructor.
Qed.

Lemma merged_nil outputs : merged [] outputs = groupsOf outputs.
Proof.
  unfold merged, groupsOf. cbn. f_equal.
  induction (firstNames outputs) as [|name names IH]; [done|].
  rewrite filter_cons_True by apply not_elem_of_nil. by rewrite IH.
Qed.

(** [groups] after the loop over the whole handle list. *)
Lemma groupByBlockName_result outputs :
  groupByBlockName outputs
  = if bool_decide (Exists (λ o, Output.blockName o ∈ objectPrototypeKeys) outputs)
    then Throw (TypeError "groups[output.blockName].push is not a function")
    else Normal (groupsOf outputs).
Proof.
  unfold groupByBlockName. rewrite forEach_groupOutput; [|constructor..].
  by rewrite merged_nil.
Qed.

End grouping.

(* ===================================================================== *)
(** * The groups and their order *)
(* ===================================================================== *)

Section groups.
Import OutputSelect Reference Examples.
Implicit Types (groups : JsRecord (list Output.t)) (outputs : list Output.t)
  (name : string) (blockDistances : JsRecord nat).

Lemma concat_Permutation {A : Type} (ls ls' : list (list A)) :
  ls ≡ₚ ls' → concat ls ≡ₚ concat ls'.
Proof.
  induction 1 as [|l ls ls' _ IH|l l' ls|ls ls' ls'' _ IH _ IH']; cbn.
  - done.
  - by rewrite IH.
  - by rewrite !app_assoc, (Permutation_app_comm l').
  - by rewrite IH.
Qed.

(** Taking one name out of a duplicate-free list of names moves its
    handles to the front. *)
Lemma concat_take_out {A : Type} (f : string → list A) name (names : list string) :
  NoDup names → (name ∉ names → f name = []) →
  f name ++ concat (f <$> filter (λ k, k ≠ name) names) ≡ₚ concat (f <$> names).
Proof.
  induction names as [|k names IH]; intros Hnodup Hempty.
  - cbn. rewrite Hempty; [done | apply not_elem_of_nil].
  - apply NoDup_cons in Hnodup as [Hk Hnames].
    destruct (decide (k = name)) as [->|Hne].
    + rewrite filter_cons_False by (by intros Hnot; apply Hnot). cbn. f_equiv.
      replace (filter (λ k, k ≠ name) names) with names; [done|].
      clear IH Hempty Hnames. induction names as [|k names IH]; [done|].
      apply not_elem_of_cons in Hk as [Hne Hk].
      rewrite filter_cons_True by done. by rewrite <- IH.
    + rewrite filter_cons_True by done. cbn.
      rewrite <- IH; [|done|].
      * by rewrite !app_assoc, (Permutation_app_comm (f name)).
      * intros Hnot. apply Hempty. by apply not_elem_of_cons.
Qed.

Lemma groupsOf_values outputs :
  (groupsOf outputs).*2 = (λ name, handlesNamed name outputs) <$> firstNames outputs.
Proof. unfold groupsOf. rewrite <- list_fmap_compose. by apply list_fmap_ext. Qed.

Lemma handlesNamed_firstNames_cons output outputs :
  (λ name, handlesNamed name (output :: outputs)) <$> firstNames (output :: outputs)
  = (output :: handlesNamed (Output.blockName output) outputs)
    :: ((λ name, handlesNamed name outputs)
          <$> filter (λ name, name ≠ Output.blockName output) (firstNames outputs)).
Proof.
  change (firstNames (output :: outputs))
    with (Output.blockName output
          :: filter (λ name, name ≠ Output.blockName output) (firstNames outputs)).
  rewrite fmap_cons, handlesNamed_same. f_equal.
  apply list_fmap_ext.
  intros i name [Hname _]%list_elem_of_lookup_2%list_elem_of_filter.
  rewrite handlesNamed_other; [done|]. by intros <-.
Qed.

(** Concatenating the groups gives the handle list back, up to order. *)
Lemma groupsOf_concat outputs : concat (groupsOf outputs).*2 ≡ₚ outputs.
Proof.
  rewrite groupsOf_values.
  induction outputs as [|output outputs IH]; [done|].
  rewrite handlesNamed_firstNames_cons.
  change (concat (?l :: ?ls)) with (l ++ concat ls).
  rewrite <- app_comm_cons. apply Permutation_skip.
  rewrite (concat_take_out (λ name, handlesNamed name outputs)).
  - exact IH.
  - apply NoDup_firstNames.
  - apply handlesNamed_nil.
Qed.

Lemma groupsOf_keys outputs : (groupsOf outputs).*1 = firstNames outputs.
Proof.
  unfold groupsOf. rewrite <- list_fmap_compose. apply list_fmap_id.
Qed.

(** ** From the groups to the record that is rendered *)

Lemma toGroup_blockName blockDistances (entries : list (string * list Output.t)) :
  blockName <$> (toGroup blockDistances <$> entries) = entries.*1.
Proof. rewrite <- list_fmap_compose. by apply list_fmap_ext. Qed.

Lemma groupsArray_Permutation blockDistances groups :
  groupsArray blockDistances groups ≡ₚ toGroup blockDistances <$> groups.
Proof.
  unfold groupsArray. by rewrite Array_sort_Permutation, Object_entries_Permutation.
Qed.

Lemma fold_left_ownSet (sorted : list Group) (acc : JsRecord (list Output.t)) :
  NoDup (acc.*1 ++ (blockName <$> sorted)) →
  fold_left (λ acc group, ownSet acc (blockName group) (outputs group)) sorted acc
  = acc ++ ((λ group, (blockName group, outputs group)) <$> sorted).
Proof.
  revert acc. induction sorted as [|group sorted IH]; intros acc Hnodup; cbn.
  - by rewrite app_nil_r.
  - rewrite ownSet_new.
    + rewrite IH; [by rewrite <- app_assoc|].
      rewrite fmap_app, <- app_assoc. done.
    + apply ownGet_None. apply NoDup_app in Hnodup as (_ & Hdisjoint & _).
      intros Hin. apply (Hdisjoint _ Hin). by left.
Qed.

Lemma toRecord_entries (sorted : list Group) :
  NoDup (blockName <$> sorted) →
  toRecord sorted = (λ group, (blockName group, outputs group)) <$> sorted.
Proof. intros Hnodup. unfold toRecord. by rewrite fold_left_ownSet. Qed.

Lemma groupsArray_names blockDistances outputs :
  blockName <$> groupsArray blockDistances (groupsOf outputs) ≡ₚ firstNames outputs.
Proof.
  by rewrite groupsArray_Permutation, toGroup_blockName, groupsOf_keys.
Qed.

Lemma groupedOutputs_result handles blocks edges grouped :
  groupedOutputs handles blocks edges = Normal grouped →
  ∃ blockDistances,
    computeDistances blocks edges = Normal blockDistances
    ∧ groupByBlockName handles = Normal (groupsOf handles)
    ∧ grouped = (λ group, (blockName group, outputs group))
                  <$> groupsArray blockDistances (groupsOf handles).
Proof.
  unfold groupedOutputs.
  destruct (computeDistances blocks edges) as [blockDistances| |]; cbn [bind]; [|done..].
  rewrite groupByBlockName_result. case_bool_decide; cbn [bind]; [done|].
  intros [= <-]. exists blockDistances. repeat split.
  apply toRecord_entries. rewrite groupsArray_names. apply NoDup_firstNames.
Qed.

End groups.

Section group_claims.
Import OutputSelect Reference Examples MoreExamples.

(** What the conditional of the callback reads for a block id. *)
Lemma distanceOf_Some (blockDistances : JsRecord nat) (blockId : string) :
  distanceOf blockDistances (Some blockId)
  = if bool_decide (blockId = "") then Hops 0
    else match ownGet blockDistances blockId with
         | Some stored => Hops stored
         | None =>
             if bool_decide (blockId ∈ objectPrototypeKeys) then PrototypeMember
             else Hops 0
         end.
Proof.
  unfold distanceOf, isSet, get. cbn. case_bool_decide; cbn; [done|].
  destruct (ownGet blockDistances blockId); [done|]. by case_bool_decide.
Qed.

(** X18. Once the grouping loop has completed, the groups array holds one
    group per block name; a handle is in the group of its block name, so
    the handles of blocks that share a name share a group; a group holds
    all the handles of its name, in discovery order; and its distance is
    read for the block id of the first of these handles alone: the
    distance stored under that id when one is, zero when the id is empty
    or nothing is stored under it, and the member of [Object.prototype]
    the id names when nothing is stored and it names one.  The other
    blocks of the name have no part in it. *)
Theorem shared_name_one_group
    (handles : list Output.t) (groups : JsRecord (list Output.t))
    (blockDistances : JsRecord nat) :
  groupByBlockName handles = Normal groups →
  NoDup (blockName <$> groupsArray blockDistances groups)
  ∧ (∀ output, output ∈ handles →
       ∃ group, group ∈ groupsArray blockDistances groups
                ∧ blockName group = Output.blockName output
                ∧ output ∈ outputs group)
  ∧ (∀ group, group ∈ groupsArray blockDistances groups →
       outputs group = handlesNamed (blockName group) handles
       ∧ ∃ first, firstOf (blockName group) handles = Some first
                  ∧ head (outputs group) = Some first
                  ∧ distance group
                    = if bool_decide (Output.blockId first = "") then Hops 0
                      else match ownGet blockDistances (Output.blockId first) with
                           | Some stored => Hops stored
                           | None =>
                               if bool_decide (Output.blockId first ∈ objectPrototypeKeys)
                               then PrototypeMember
                               else Hops 0
                           end).
Proof.
  rewrite groupByBlockName_result. case_bool_decide; [done|]. intros [= <-].
  split; [|split].
  - rewrite groupsArray_names. apply NoDup_firstNames.
  - intros output Hin.
    exists (toGroup blockDistances
              (Output.blockName output, handlesNamed (Output.blockName output) handles)).
    split; [|split; [done|]].
    + rewrite groupsArray_Permutation. apply list_elem_of_fmap_2.
      unfold groupsOf. apply (list_elem_of_fmap_2 (λ name, (name, handlesNamed name handles))).
      apply elem_of_firstNames. eauto.
    + cbn. by apply list_elem_of_filter.
  - intros group. rewrite groupsArray_Permutation.
    intros (entry & -> & (name & -> & Hname)%list_elem_of_fmap)%list_elem_of_fmap.
    split; [done|]. cbn [toGroup blockName distance outputs fst snd].
    rewrite firstOf_head.
    destruct (handlesNamed name handles) as [|first rest] eqn:Hnamed.
    + by apply handlesNamed_nil in Hnamed.
    + exists first. split; [done|]. split; [done|]. cbn [head fmap option_fmap option_map].
      apply distanceOf_Some.
Qed.

Lemma shared_name_one_group_witness :
  let handles := workflowOutputs (Some "wf") [start; twinNear; twinFar] in
  let blockDistances := [("start", 0); ("b1", 1); ("b2", 2)] in
  let groups := [("Twin", handles)] in
  groupByBlockName handles = Normal groups
  ∧ ∀ group, group ∈ groupsArray blockDistances groups →
      outputs group = handles ∧ distance group = Hops 1.
Proof.
  cbn zeta. split; [reflexivity|]. intros group Hin.
  destruct (shared_name_one_group
              (workflowOutputs (Some "wf") [start; twinNear; twinFar])
              [("Twin", workflowOutputs (Some "wf") [start; twinNear; twinFar])]
              [("start", 0); ("b1", 1); ("b2", 2)] eq_refl)
    as (_ & _ & Hgroup).
  destruct (Hgroup group Hin) as (Houtputs & first & Hfirst & _ & Hdistance).
  apply list_elem_of_singleton in Hin. subst group.
  split; [reflexivity|].
  vm_compute in Hfirst. injection Hfirst as <-. exact Hdistance.
Defined.

(** The group of the twins is sorted by the distance of the nearer one,
    which comes first in the block list. *)
Example twin_distance :
  computeDistances [start; twinNear; twinFar] chain
  = Normal [("start", 0); ("b1", 1); ("b2", 2)]
  ∧ (λ group, (blockName group, Output.blockId <$> outputs group, distance group))
      <$> groupsArray [("start", 0); ("b1", 1); ("b2", 2)]
            [("Twin", workflowOutputs (Some "wf") [start; twinNear; twinFar])]
    = [("Twin", ["b1"; "b2"], Hops 1)].
Proof. by vm_compute. Qed.

(** C4 at a block named after a member of [Object.prototype]: the block
    has a handle, and the grouping loop raises at it, so that no group is
    left to concatenate. *)
Theorem prototype_name_raises :
  workflowOutputs (Some "wf") [ctor] = [handleAt ctor ["response"; "text"]]
  ∧ groupByBlockName (workflowOutputs (Some "wf") [ctor])
    = Throw (TypeError "groups[output.blockName].push is not a function")
  ∧ groupedOutputs (workflowOutputs (Some "wf") [ctor]) [ctor] []
    = Throw (TypeError "groups[output.blockName].push is not a function").
Proof. by vm_compute. Qed.

(** C10 at two blocks named after the same member of [Object.prototype]:
    each has a handle, and the grouping loop raises at the first of them,
    so that the handles are merged into no group and no distance is read
    for one; with the name [Twin] instead, the same two blocks give one
    group, sorted by the distance of the nearer block. *)
Theorem shared_prototype_name_raises :
  workflowOutputs (Some "wf") [start; ctor; ctorTwin]
  = [handleAt ctor ["response"; "text"]; handleAt ctorTwin ["response"; "text"]]
  ∧ Block.name ctor = Block.name ctorTwin
  ∧ Block.id ctor ≠ Block.id ctorTwin
  ∧ groupByBlockName (workflowOutputs (Some "wf") [start; ctor; ctorTwin])
    = Throw (TypeError "groups[output.blockName].push is not a function")
  ∧ renderedGroups (workflowOutputs (Some "wf") [start; ctor; ctorTwin])
      [start; ctor; ctorTwin] [Edge.mk "start" "b3"; Edge.mk "b3" "b4"]
    = Throw (TypeError "groups[output.blockName].push is not a function")
  ∧ bind (groupByBlockName (workflowOutputs (Some "wf") [start; twinNear; twinFar]))
      (λ groups,
         Normal ((λ group, (blockName group, Output.blockId <$> outputs group,
                            distance group))
                   <$> groupsArray [("start", 0); ("b1", 1); ("b2", 2)] groups))
    = Normal [("Twin", ["b1"; "b2"], Hops 1)].
Proof. by vm_compute. Qed.

(** C2 at blocks named by numerals.  With the chain behind the starter,
    the block named 2 is two hops away and the block named 1 one hop: the
    sort puts the group of 2 first, and the record built from the sorted
    array enumerates the group of 1 first.  Without a starter both have
    distance zero: the group of 2 is discovered first, and the array to
    sort, read from the record of groups, already starts with the group
    of 1. *)
Theorem numeral_names_render_ascending :
  let handles := workflowOutputs (Some "wf") [start; one; two] in
  (computeDistances [start; one; two] chain
   = Normal [("start", 0); ("b1", 1); ("b2", 2)]
   ∧ (λ group, (blockName group, distance group))
       <$> groupsArray [("start", 0); ("b1", 1); ("b2", 2)]
             [("1", [handleAt one ["response"; "text"]]);
              ("2", [handleAt two ["response"; "text"]])]
     = [("2", Hops 2); ("1", Hops 1)]
   ∧ groupedOutputs handles [start; one; two] chain
     = Normal [("2", [handleAt two ["response"; "text"]]);
               ("1", [handleAt one ["response"; "text"]])]
   ∧ renderedGroups handles [start; one; two] chain
     = Normal [("1", [handleAt one ["response"; "text"]]);
               ("2", [handleAt two ["response"; "text"]])])
  ∧ (firstNames (workflowOutputs (Some "wf") [two; one]) = ["2"; "1"]
     ∧ computeDistances [two; one] [] = Normal []
     ∧ groupByBlockName (workflowOutputs (Some "wf") [two; one])
       = Normal [("2", [handleAt two ["response"; "text"]]);
                 ("1", [handleAt one ["response"; "text"]])]
     ∧ (λ group, (blockName group, distance group))
         <$> groupsArray []
               [("2", [handleAt two ["response"; "text"]]);
                ("1", [handleAt one ["response"; "text"]])]
       = [("1", Hops 0); ("2", Hops 0)]
     ∧ renderedGroups (workflowOutputs (Some "wf") [two; one]) [two; one] []
       = Normal [("1", [handleAt one ["response"; "text"]]);
                 ("2", [handleAt two ["response"; "text"]])]).
Proof. by vm_compute. Qed.

(** The example of the specification: one handle, in the only group. *)
Example specification_example :
  renderedGroups (workflowOutputs (Some "wf") [start; agent1]) [start; agent1]
    [Edge.mk "start" "agent1"]
  = Normal [("Agent 1", [handleAt agent1 ["response"; "text"]])]
  ∧ Output.path (handleAt agent1 ["response"; "text"]) = "response.text".
Proof. by vm_compute. Qed.

(** The same workflow with ordinary names renders the further block
    first. *)
Example ordinary_names_render_descending :
  bind (renderedGroups (workflowOutputs (Some "wf") [start; near; far])
          [start; near; far] chain)
       (λ rendered, Normal rendered.*1)
  = Normal ["Far"; "Near"].
Proof. by vm_compute. Qed.

End group_claims.

(* ===================================================================== *)
(** * What holds of the groups for names that are safe as keys *)
(* ===================================================================== *)

Section group_order.
Import OutputSelect Reference Examples.


Lemma entries_outputs (sorted : list Group) :
  ((λ group, (blockName group, outputs group)) <$> sorted).*2 = outputs <$> sorted.
Proof. rewrite <- list_fmap_compose. by apply list_fmap_ext. Qed.


Lemma groupsArray_outputs blockDistances (groups : JsRecord (list Output.t)) :
  outputs <$> groupsArray blockDistances groups ≡ₚ groups.*2.
Proof.
  rewrite groupsArray_Permutation, <- list_fmap_compose.
  apply reflexive_eq. by apply list_fmap_ext.
Qed.

Lemma groupByBlockName_Normal (handles : list Output.t) groups :
  groupByBlockName handles = Normal groups → groups = groupsOf handles.
Proof. rewrite groupByBlockName_result. case_bool_decide; by intros [=]. Qed.

(** X2. The grouping loop completes exactly when no handle is named after a
    member of [Object.prototype]; it then leaves the groups in discovery
    order, each with the handles of its name. *)
Theorem grouping_completes (handles : list Output.t) :
  ((∀ output, output ∈ handles → Output.blockName output ∉ objectPrototypeKeys)
   ↔ ∃ groups, groupByBlockName handles = Normal groups)
  ∧ ∀ groups, groupByBlockName handles = Normal groups → groups = groupsOf handles.
Proof.
  rewrite groupByBlockName_result. split.
  - case_bool_decide as Hproto; split.
    + intros Hnone. apply Exists_exists in Hproto as (output & Hin & Hname).
      by destruct (Hnone output Hin).
    + by intros [groups [=]].
    + eauto.
    + intros _ output Hin Hname. apply Hproto, Exists_exists. eauto.
  - case_bool_decide; intros groups [=]. done.
Qed.


(** X1. Concatenating the groups, as enumerated from [groups] or from the
    record that is returned, gives back the handle list up to order:
    whenever the memo completes, no handle is lost and none is
    duplicated. *)
Theorem grouping_round_trip (handles : list Output.t) :
  (∀ groups, groupByBlockName handles = Normal groups →
     concat (Object_entries groups).*2 ≡ₚ handles)
  ∧ ∀ blocks edges grouped,
      groupedOutputs handles blocks edges = Normal grouped →
      concat (Object_entries grouped).*2 ≡ₚ handles.
Proof.
  split.
  - intros groups ->%groupByBlockName_Normal.
    by rewrite Object_entries_Permutation, groupsOf_concat.
  - intros blocks edges grouped (blockDistances & _ & _ & ->)%groupedOutputs_result.
    rewrite Object_entries_Permutation.
    etrans; [|apply groupsOf_concat]. apply concat_Permutation.
    by rewrite entries_outputs, groupsArray_outputs.
Qed.

Lemma grouping_round_trip_witness :
  concat (Object_entries
            [("2", workflowOutputs (Some "wf") [two]);
             ("1", workflowOutputs (Some "wf") [one])]).*2
  ≡ₚ workflowOutputs (Some "wf") [start; one; two].
Proof.
  apply (proj2 (grouping_round_trip (workflowOutputs (Some "wf") [start; one; two]))
           [start; one; two] chain).
  by vm_compute.
Defined.






End group_order.

(* ===================================================================== *)
(** * The distances are shortest hop counts *)
(* ===================================================================== *)

Section shortest_distances.
Import OutputSelect Reference Examples.
Context (adjList : JsRecord (list string)) (start : string).
Implicit Types (state : BfsState) (id : string).

(** An id that is not visited and can be reached has, on the way, an id
    waiting in the queue no further than it. *)
Lemma frontier state n id :
  bfsInvariant adjList start state →
  start ∈ visited state →
  walk (edgeOf adjList) n start id → id ∉ visited state →
  ∃ entry, entry ∈ queue state ∧ entry.2 ≤ n.
Proof.
  intros (_ & Hkeys & Hshortest & _ & _ & _ & Hedges) Hstart Hwalk.
  induction Hwalk as [a|n a b c Hwalk IH Hstep]; intros Hnew.
  - done.
  - destruct (decide (b ∈ visited state)) as [Hb|Hb].
    + apply Hkeys in Hb as [distance Hdistance].
      destruct (Hshortest _ _ Hdistance) as [_ Hmin].
      destruct (Hedges _ _ _ Hdistance Hstep) as [?|Hqueued]; [done|].
      exists (c, distance + 1). split; [done|]. cbn. specialize (Hmin n Hwalk). lia.
    + destruct (IH Hshortest Hstart Hb) as (entry & Hin & Hle). exists entry. split; [done|lia].
Qed.

Lemma bfsInvariant_start : bfsInvariant adjList start (bfsStart start).
Proof.
  unfold bfsInvariant, bfsStart. cbn.
  refine (conj _ (conj _ (conj _ (conj _ (conj _ (conj _ _)))))).
  - by right.
  - intros id. split; [set_solver | by intros [? ?]].
  - done.
  - intros id distance [= -> ->]%list_elem_of_singleton. constructor.
  - repeat constructor.
  - intros first entry [= <-] ->%list_elem_of_singleton. cbn. lia.
  - done.
Qed.

Lemma sorted_head_le (queue : list (string * nat)) first entry :
  StronglySorted (λ a b : string * nat, a.2 ≤ b.2) queue →
  head queue = Some first → entry ∈ queue → first.2 ≤ entry.2.
Proof.
  destruct 1 as [|e rest Hsorted Hall]; cbn; [done|].
  intros [= ->] [->|Hin]%elem_of_cons; [done|].
  rewrite Forall_forall in Hall. by apply Hall.
Qed.

(** The invariant passes through an iteration. *)
Lemma bfsStep_invariant state state' :
  bfsInvariant adjList start state →
  bfsStep adjList state = Next state' →
  bfsInvariant adjList start state'.
Proof.
  intros Hinv Hstep.
  pose proof Hinv as (Hstart & Hkeys & Hshortest & Hqueue & Hsorted & Hspan & Hedges).
  destruct state as [[|[id distance] rest] seen dists]; [done|].
  unfold bfsStep in Hstep. cbn in *.
  apply StronglySorted_cons in Hsorted as [Hhead Hrest].
  rewrite Forall_forall in Hhead.
  assert (∀ entry, entry ∈ rest → entry.2 ≤ S distance) as Hbound.
  { intros entry Hin. apply (Hspan (id, distance) entry eq_refl). by right. }
  case_bool_decide as Hseen.
  - (* the id was visited before: the pair is dropped *)
    injection Hstep as <-. unfold bfsInvariant. cbn.
    refine (conj _ (conj _ (conj _ (conj _ (conj _ (conj _ _)))))).
    + destruct Hstart as [?|Hinitial]; [by left|].
      unfold bfsStart in Hinitial. simplify_eq. set_solver.
    + apply Hkeys.
    + apply Hshortest.
    + intros ? ? ?. apply Hqueue. by right.
    + done.
    + intros first entry Hfirst Hin.
      pose proof (Hbound entry Hin).
      assert (distance ≤ first.2); [|lia].
      apply (Hhead first). destruct rest; [done|]. injection Hfirst as ->. by left.
    + intros u d target Hu Hedge.
      destruct (Hedges u d target Hu Hedge) as [?|[[= -> _]|?]%elem_of_cons]; auto.
  - (* the id is expanded *)
    assert (ownGet dists id = None) as Hfresh.
    { destruct (ownGet dists id) eqn:Hget; [|done].
      destruct Hseen. apply Hkeys. eauto. }
    assert (shortest (edgeOf adjList) start id distance) as Hid.
    { split; [apply Hqueue; by left|]. intros n Hwalk.
      destruct Hstart as [Hvisited|Hinitial].
      - destruct (frontier _ n id Hinv Hvisited Hwalk Hseen) as (entry & Hin & Hle).
        cbn in Hin. apply elem_of_cons in Hin as [->|Hin]; [done|].
        specialize (Hhead entry Hin). cbn in Hhead. lia.
      - unfold bfsStart in Hinitial. simplify_eq. lia. }
    assert (∀ u d, ownGet (ownSet dists id distance) u = Some d →
                   (u = id ∧ d = distance) ∨ (u ≠ id ∧ ownGet dists u = Some d)) as Hset.
    { intros u d. destruct (decide (id = u)) as [<-|Hne].
      - rewrite ownGet_ownSet_eq. intros [= <-]. by left.
      - rewrite ownGet_ownSet_ne by done. right. by split. }
    set (pushed := (λ targetId, (targetId, distance + 1))
                     <$> match get adjList id with Own targets => targets | _ => [] end).
    assert (state' = mkBfs (rest ++ pushed) ({[id]} ∪ seen) (ownSet dists id distance))
      as ->.
    { subst pushed.
      destruct (get adjList id);
        [by injection Hstep as <- | done | injection Hstep as <-; cbn; by rewrite app_nil_r]. }
    assert (∀ target, edgeOf adjList id target → (target, distance + 1) ∈ pushed)
      as Hpushed.
    { intros target (targets & Hget & Hin). subst pushed. unfold get. rewrite Hget.
      by apply (list_elem_of_fmap_2 (λ targetId, (targetId, distance + 1))). }
    assert (∀ entry, entry ∈ pushed → entry.2 = distance + 1 ∧ edgeOf adjList id entry.1)
      as Hpushed'.
    { intros entry. subst pushed. unfold get.
      destruct (ownGet adjList id) as [targets|] eqn:Hget.
      - intros (target & -> & Hin)%list_elem_of_fmap. split; [done|]. by exists targets.
      - case_bool_decide; by intros ?%elem_of_nil. }
    clear Hstep. unfold bfsInvariant. cbn.
    refine (conj _ (conj _ (conj _ (conj _ (conj _ (conj _ _)))))).
    + left. destruct Hstart as [?|Hinitial]; [by apply elem_of_union_r|].
      unfold bfsStart in Hinitial. simplify_eq.
      apply elem_of_union_l. by apply elem_of_singleton.
    + intros u. split.
      * intros [->%elem_of_singleton|Hin]%elem_of_union.
        -- rewrite ownGet_ownSet_eq. eauto.
        -- apply Hkeys in Hin as [d Hd]. exists d.
           rewrite ownGet_ownSet_ne; [done|]. intros <-. congruence.
      * intros [d [[-> _]|[_ Hd]]%Hset];
          [apply elem_of_union_l; by apply elem_of_singleton|].
        apply elem_of_union_r, Hkeys. eauto.
    + intros u d [[-> ->]|[_ Hd]]%Hset; [apply Hid | by apply Hshortest].
    + intros u d [Hin|Hin]%elem_of_app.
      * apply Hqueue. by right.
      * destruct (Hpushed' _ Hin) as [Hd Hedge]. cbn in *. subst d.
        replace (distance + 1) with (S distance) by lia.
        econstructor; [|done]. apply Hqueue. by left.
    + apply StronglySorted_app. split; [|split].
      * intros e1 e2 Hin1 Hin2. destruct (Hpushed' _ Hin2) as [-> _].
        specialize (Hbound e1 Hin1). lia.
      * done.
      * assert (Forall (λ entry : string * nat, entry.2 = distance + 1) pushed) as Hall
          by (apply Forall_forall; intros entry Hin; by apply Hpushed').
        clear -Hall. induction Hall as [|e l He Hl IH]; constructor; [done|].
        eapply Forall_impl; [exact Hl|]. cbn. intros ? ->. lia.
    + intros first entry Hfirst Hin.
      assert (distance ≤ first.2) as Hle.
      { destruct rest as [|e rest'].
        - cbn in Hfirst. apply head_Some_elem_of in Hfirst.
          destruct (Hpushed' _ Hfirst). lia.
        - injection Hfirst as ->. apply Hhead. by left. }
      apply elem_of_app in Hin as [Hin|Hin].
      * specialize (Hbound entry Hin). lia.
      * destruct (Hpushed' _ Hin). lia.
    + intros u d target [[-> ->]|[Hne Hd]]%Hset Hedge.
      * right. apply elem_of_app. right. by apply Hpushed.
      * destruct (Hedges u d target Hd Hedge) as [?|[[= -> _]|?]%elem_of_cons].
        -- left. by apply elem_of_union_r.
        -- left. apply elem_of_union_l. by apply elem_of_singleton.
        -- right. apply elem_of_app. by left.
Qed.

Lemma bfsStep_Exit state : bfsStep adjList state = Exit → queue state = [].
Proof.
  unfold bfsStep. destruct (queue state) as [|[id distance] rest]; [done|].
  case_bool_decide; [done|]. by destruct (get adjList id).
Qed.

(** At the exit of the loop every stored distance is a shortest hop
    count, and every id that can be reached has one. *)
Lemma exit_shortest state :
  bfsInvariant adjList start state →
  bfsStep adjList state = Exit →
  ∀ id,
    match ownGet (blockDistances state) id with
    | Some distance => shortest (edgeOf adjList) start id distance
    | None => ∀ n, ¬ walk (edgeOf adjList) n start id
    end.
Proof.
  intros Hinv Hempty%bfsStep_Exit id.
  pose proof Hinv as (Hstart & Hkeys & Hshortest & _).
  destruct (ownGet (blockDistances state) id) as [distance|] eqn:Hget;
    [by apply Hshortest|].
  intros n Hwalk.
  assert (start ∈ visited state) as Hvisited.
  { destruct Hstart as [?|Hinitial]; [done|]. by rewrite Hinitial in Hempty. }
  destruct (frontier state n id Hinv Hvisited Hwalk) as (entry & Hin & _).
  - intros [? ?]%Hkeys. congruence.
  - rewrite Hempty in Hin. by apply elem_of_nil in Hin.
Qed.

Lemma bfsLoop_shortest bound state final :
  bfsInvariant adjList start state →
  bfsLoop bound adjList state = Normal final →
  ∀ id,
    match ownGet (blockDistances final) id with
    | Some distance => shortest (edgeOf adjList) start id distance
    | None => ∀ n, ¬ walk (edgeOf adjList) n start id
    end.
Proof.
  revert state. induction bound as [|bound IH]; intros state Hinv; cbn;
    destruct (bfsStep adjList state) as [|state'|] eqn:Hstep; intros Hloop;
    try discriminate.
  - injection Hloop as <-. by apply exit_shortest.
  - injection Hloop as <-. by apply exit_shortest.
  - apply (IH state'); [by eapply bfsStep_invariant | done].
Qed.

End shortest_distances.

Section shortest_claim.
Import OutputSelect Reference Examples.

Lemma addEdge_edgeOf adjList edge adjList' :
  addEdge adjList edge = Normal adjList' →
  ∀ source target,
    edgeOf adjList' source target
    ↔ edgeOf adjList source target
      ∨ (Edge.source edge = source ∧ Edge.target edge = target).
Proof.
  unfold addEdge, edgeOf.
  destruct (get adjList (Edge.source edge)) as [targets| |] eqn:Hget.
  - rewrite Hget. intros [= <-] source target. apply get_Own in Hget.
    destruct (decide (Edge.source edge = source)) as [<-|Hne].
    + rewrite ownGet_ownSet_eq, Hget. split.
      * intros (? & [= <-] & [?| ->%list_elem_of_singleton]%elem_of_app); eauto.
      * intros [(? & [= <-] & ?)|[_ <-]]; eexists; (split; [done|]);
          apply elem_of_app; [by left | right; by apply list_elem_of_singleton].
    + rewrite ownGet_ownSet_ne by done. split; [eauto|]. by intros [?|[? _]].
  - by rewrite Hget.
  - assert (ownGet adjList (Edge.source edge) = None) as Hnone.
    { unfold get in Hget. by destruct (ownGet adjList (Edge.source edge)). }
    unfold get at 1. rewrite ownGet_ownSet_eq, ownSet_ownSet.
    intros [= <-] source target.
    destruct (decide (Edge.source edge = source)) as [<-|Hne].
    + rewrite ownGet_ownSet_eq, Hnone. split.
      * intros (? & [= <-] & ->%list_elem_of_singleton). eauto.
      * intros [(? & [=] & _)|[_ <-]]. eexists. split; [done|].
        by apply list_elem_of_singleton.
    + rewrite ownGet_ownSet_ne by done. split; [eauto|]. by intros [?|[? _]].
Qed.

Lemma forEach_addEdge_edgeOf edges adjList adjList' :
  forEach addEdge edges adjList = Normal adjList' →
  ∀ source target,
    edgeOf adjList' source target
    ↔ edgeOf adjList source target ∨ edgeIn edges source target.
Proof.
  revert adjList. induction edges as [|edge edges IH]; intros adjList; cbn.
  - intros [= <-] source target. split; [eauto|].
    intros [?|(? & ?%elem_of_nil & _)]; done.
  - destruct (addEdge adjList edge) as [adjList1| |] eqn:Hadd; cbn; [|done..].
    intros Hrest source target.
    rewrite (IH _ Hrest), (addEdge_edgeOf _ _ _ Hadd). unfold edgeIn. split.
    + intros [[?|[? ?]]|(e & Hin & ?)]; [by left|right..].
      * exists edge. split; [by left|done].
      * exists e. split; [by right|done].
    + intros [?|(e & [->|Hin]%elem_of_cons & ?)]; [by left; left|by left; right|].
      right. by exists e.
Qed.

(** The adjacency list holds the edges of the array, and no other. *)
Lemma buildAdjList_edgeOf edges adjList :
  buildAdjList edges = Normal adjList →
  ∀ source target, edgeOf adjList source target ↔ edgeIn edges source target.
Proof.
  intros Hbuild source target. rewrite (forEach_addEdge_edgeOf _ _ _ Hbuild).
  split; [|eauto]. intros [(? & [=] & _)|?]; done.
Qed.

Lemma walk_ext (step step' : string → string → Prop) n a b :
  (∀ source target, step source target ↔ step' source target) →
  walk step n a b → walk step' n a b.
Proof.
  intros Hext. induction 1 as [a|n a b c _ IH Hstep]; [constructor|].
  econstructor; [done|]. by apply Hext.
Qed.

Lemma shortest_ext (step step' : string → string → Prop) start id distance :
  (∀ source target, step source target ↔ step' source target) →
  shortest step start id distance → shortest step' start id distance.
Proof.
  intros Hext [Hwalk Hmin]. split; [by eapply walk_ext|].
  intros n Hn. apply Hmin. eapply walk_ext; [|done]. intros ??. symmetry. apply Hext.
Qed.

(** X5. When the distance computation completes, the distance stored for a
    block id is the hop count of a shortest walk along the edges from the
    starter to it, and an id has a distance exactly when such a walk
    exists; without a starter no distance is stored. *)
Theorem distances_are_shortest
    (blocks : list Block.t) (edges : list Edge.t) (blockDistances : JsRecord nat) :
  computeDistances blocks edges = Normal blockDistances →
  if isSet (starterBlockId blocks) then
    ∀ id,
      match ownGet blockDistances id with
      | Some distance =>
          shortest (edgeIn edges) (default "" (starterBlockId blocks)) id distance
      | None => ∀ n, ¬ walk (edgeIn edges) n (default "" (starterBlockId blocks)) id
      end
  else blockDistances = [].
Proof.
  unfold computeDistances. destruct (isSet (starterBlockId blocks)); [|by intros [= <-]].
  destruct (buildAdjList edges) as [adjList| |] eqn:Hbuild; cbn [bind]; [|done..].
  destruct (bfsLoop _ _ _) as [final| |] eqn:Hloop; cbn [bind]; [|done..].
  intros [= <-] id.
  pose proof (bfsLoop_shortest adjList _ _ _ _ (bfsInvariant_start adjList _) Hloop id)
    as Hfinal.
  pose proof (buildAdjList_edgeOf _ _ Hbuild) as Hext.
  destruct (ownGet (blockDistances final) id) as [distance|].
  - by eapply shortest_ext.
  - intros n Hwalk. apply (Hfinal n). eapply walk_ext; [|done].
    intros ??. symmetry. apply Hext.
Qed.

Lemma distances_are_shortest_witness :
  shortest (edgeIn chain) "start" "b2" 2.
Proof.
  exact (distances_are_shortest [start; one; two] chain
           [("start", 0); ("b1", 1); ("b2", 2)] eq_refl "b2").
Defined.

End shortest_claim.

(* ===================================================================== *)
(** * The handle list as a whole *)
(* ===================================================================== *)

Section handle_list.
Import OutputSelect Reference Shape Examples MoreExamples.
Implicit Types s t p q : string.

(** What one block contributes, as a membership. *)
Lemma elem_of_processBlock output block :
  output ∈ processBlock [] block
  ↔ Block.type block ≠ "starter"
    ∧ ∃ props keys,
        Block.outputs block = JObject props
        ∧ truthy (getProp props "response") = true
        ∧ keys ∈ leafPaths (getProp props "response")
        ∧ output = handleAt block ("response" :: keys).
Proof.
  rewrite processBlock_contribution, app_nil_l. unfold handlesOf.
  case_bool_decide as Htype.
  { split; [by intros ?%elem_of_nil | by intros [? _]]. }
  destruct (Block.outputs block) as [| | | | | |props] eqn:Houtputs;
    try (split; [by intros ?%elem_of_nil | by intros (_ & ? & ? & [=] & _)]).
  destruct (truthy (getProp props "response")) eqn:Htruthy.
  - rewrite <- list_fmap_compose, list_elem_of_fmap. split.
    + intros (keys & -> & Hkeys). split; [done|]. by exists props, keys.
    + intros (_ & props' & keys & [= <-] & _ & Hkeys & ->). by exists keys.
  - split; [by intros ?%elem_of_nil|].
    intros (_ & props' & keys & [= <-] & Htrue & _). congruence.
Qed.

(** X6. The handle list holds the handles of the leaves under the truthy
    [outputs.response] of the blocks that are not the starter, when a
    workflow identifier is set, and nothing else: a handle with a given
    identifier, block id, block name, block type and path is in the list
    exactly when such a block of the store has that id, name and type, the
    path is the dot-joined key sequence from [response] to one of its
    leaves, and the identifier is the block id and the path joined by an
    underscore.  The label of a handle whose block name is made of ASCII
    characters is the name without white space and in lower case, a dot,
    and the path. *)
Theorem handles_are_leaves (workflowId : option string) (blocks : list Block.t) :
  (∀ id blockId blockName blockType path,
     (∃ label,
        Output.mk id label blockId blockName blockType path
        ∈ workflowOutputs workflowId blocks)
     ↔ isSet workflowId = true
       ∧ ∃ block props keys,
           block ∈ blocks
           ∧ Block.type block ≠ "starter"
           ∧ Block.outputs block = JObject props
           ∧ truthy (getProp props "response") = true
           ∧ keys ∈ leafPaths (getProp props "response")
           ∧ id = Block.id block +:+ "_" +:+ dotJoin ("response" :: keys)
           ∧ blockId = Block.id block
           ∧ blockName = Block.name block
           ∧ blockType = Block.type block
           ∧ path = dotJoin ("response" :: keys))
  ∧ ∀ output,
      output ∈ workflowOutputs workflowId blocks →
      isAscii (Output.blockName output) = true →
      Output.label output
      = toLowerCase (removeWhitespace (Output.blockName output))
        +:+ "." +:+ Output.path output.
Proof.
  split.
  2:{ intros output (block & keys & _ & _ & ->)%elem_of_workflowOutputs _. done. }
  intros id blockId blockName blockType path.
  destruct (isSet workflowId) eqn:Hset.
  2:{ rewrite workflowOutputs_unset by done.
      split; [by intros [? ?%elem_of_nil] | by intros [[=] _]]. }
  rewrite workflowOutputs_set by done. split.
  - intros [label Hin]. rewrite list_elem_of_In, in_concat in Hin.
    destruct Hin as (handles & Hhandles%list_elem_of_In & Hin%list_elem_of_In).
    apply list_elem_of_fmap in Hhandles as (block & -> & Hblock).
    apply elem_of_processBlock in Hin as (Htype & props & keys & ? & ? & ? & Heq).
    injection Heq as -> _ -> -> -> ->.
    split; [done|]. by exists block, props, keys.
  - intros (_ & block & props & keys & Hblock & Htype & Houtputs & Htruthy & Hkeys
            & -> & -> & -> & -> & ->).
    exists (normalizedName (Block.name block) +:+ "." +:+ dotJoin ("response" :: keys)).
    rewrite list_elem_of_In, in_concat.
    exists (processBlock [] block). split.
    + apply list_elem_of_In. by apply list_elem_of_fmap_2.
    + apply list_elem_of_In, elem_of_processBlock. split; [done|].
      by exists props, keys.
Qed.

(** The handles of [nested], a block with an ASCII name: the label of each
    is the one the second part gives. *)
Example nested_labels :
  isAscii (Block.name nested) = true
  ∧ Output.label <$> workflowOutputs (Some "wf") [nested]
    = (λ path, toLowerCase (removeWhitespace (Block.name nested)) +:+ "." +:+ path)
        <$> (Output.path <$> workflowOutputs (Some "wf") [nested]).
Proof. by vm_compute. Qed.

(** X7. The handle list of a store is the concatenation, in the order of
    the blocks, of the handle lists of its blocks taken one by one: what a
    block contributes does not depend on the other blocks, and the
    handles of a block stand together. *)
Theorem handles_block_by_block (workflowId : option string) (blocks : list Block.t) :
  workflowOutputs workflowId blocks
  = concat ((λ block, workflowOutputs workflowId [block]) <$> blocks)
  ∧ (∀ before after,
       blocks = before ++ after →
       workflowOutputs workflowId blocks
       = workflowOutputs workflowId before ++ workflowOutputs workflowId after)
  ∧ ∀ block output,
      output ∈ workflowOutputs workflowId [block] → Output.blockId output = Block.id block.
Proof.
  split; [|split].
  - induction blocks as [|block blocks IH].
    + unfold workflowOutputs. by destruct (negb _).
    + rewrite workflowOutputs_cons. cbn [fmap list_fmap concat]. by rewrite <- IH.
  - intros before after ->. apply workflowOutputs_app.
  - intros block output (owner & keys & Hin & _ & ->)%elem_of_workflowOutputs.
    apply list_elem_of_singleton in Hin as ->. done.
Qed.

(** ** Distinct identifiers *)

Lemma noDot_split s t p q :
  noDot s = true → noDot t = true →
  s +:+ "." +:+ p = t +:+ "." +:+ q → s = t ∧ p = q.
Proof.
  revert t. induction s as [|c s IH]; intros [|d t] Hs Ht Heq.
  - by injection Heq.
  - rewrite append_nil_l, append_cons in Heq. injection Heq as <- _.
    cbn in Ht. by rewrite N.eqb_refl in Ht.
  - rewrite append_nil_l, append_cons in Heq. injection Heq as -> _.
    cbn in Hs. by rewrite N.eqb_refl in Hs.
  - rewrite !append_cons in Heq. injection Heq as -> Heq.
    cbn in Hs, Ht. apply andb_prop in Hs as [_ Hs]. apply andb_prop in Ht as [_ Ht].
    by destruct (IH t Hs Ht Heq) as [-> ->].
Qed.

Lemma noDot_append_dot s t : noDot (s +:+ "." +:+ t) = false.
Proof.
  induction s as [|c s IH]; [done|].
  rewrite append_cons. cbn [noDot]. rewrite IH. by destruct (negb _).
Qed.

(** Key sequences without dots are read back from their joins. *)
Lemma dotJoin_inj key keys key' keys' :
  Forall (λ k, noDot k = true) (key :: keys) →
  Forall (λ k, noDot k = true) (key' :: keys') →
  dotJoin (key :: keys) = dotJoin (key' :: keys') →
  key :: keys = key' :: keys'.
Proof.
  revert key key' keys'. induction keys as [|next keys IH];
    intros key key' [|next' keys'] Hkeys Hkeys'; rewrite (dotJoin_cons key), (dotJoin_cons key').
  - by intros ->.
  - intros ->. apply Forall_cons in Hkeys as [Hkey _].
    by rewrite noDot_append_dot in Hkey.
  - intros <-. apply Forall_cons in Hkeys' as [Hkey _].
    by rewrite noDot_append_dot in Hkey.
  - apply Forall_cons in Hkeys as [Hkey Hkeys].
    apply Forall_cons in Hkeys' as [Hkey' Hkeys'].
    intros [-> Hrest]%noDot_split; [|done..].
    by rewrite (IH _ _ _ Hkeys Hkeys' Hrest).
Qed.

Lemma plainKeys_object props :
  plainKeys (JObject props) = true
  ↔ NoDup props.*1
    ∧ Forall (λ entry : string * JsValue,
                noDot entry.1 = true ∧ plainKeys entry.2 = true) props.
Proof.
  cbn [plainKeys]. rewrite andb_true_iff, bool_decide_eq_true, forallb_forall.
  rewrite Forall_forall. setoid_rewrite andb_true_iff.
  setoid_rewrite <- list_elem_of_In. done.
Qed.

(** The key sequences of a value with plain keys hold no dot and are
    pairwise distinct. *)
Lemma plainKeys_leafPaths value :
  plainKeys value = true →
  Forall (Forall (λ k, noDot k = true)) (leafPaths value) ∧ NoDup (leafPaths value).
Proof.
  induction value as [| | | | | |props IH] using JsValue_nested_ind;
    try (intros _; split; [by repeat constructor | apply NoDup_singleton]).
  intros [Hnodup Hall]%plainKeys_object. cbn [leafPaths].
  induction props as [|[key value] props IHprops]; cbn [fmap list_fmap concat].
  { split; constructor. }
  apply Forall_cons in IH as [IHvalue IH].
  apply Forall_cons in Hall as [[Hkey Hvalue] Hall].
  cbn [fmap list_fmap fst] in Hnodup. apply NoDup_cons in Hnodup as [Hfresh Hnodup].
  destruct (IHprops IH Hnodup Hall) as [Hdots Hdistinct].
  destruct (IHvalue Hvalue) as [Hdots' Hdistinct']. cbn [fst snd] in *. split.
  - apply Forall_app. split; [|done].
    apply Forall_fmap. eapply Forall_impl; [exact Hdots'|].
    intros keys Hkeys. cbn. by constructor.
  - apply NoDup_app. split; [|split; [|done]].
    + apply (NoDup_fmap_2 _). exact Hdistinct'.
    + intros keys (keys' & -> & _)%list_elem_of_fmap Hin.
      apply Hfresh. rewrite list_elem_of_In, in_concat in Hin.
      destruct Hin as (paths & Hpaths%list_elem_of_In & Hin%list_elem_of_In).
      apply list_elem_of_fmap in Hpaths as ([key' value'] & -> & Hentry).
      apply list_elem_of_fmap in Hin as (keys'' & [= -> _] & _).
      by apply (list_elem_of_fmap_2 fst) in Hentry.
Qed.

Lemma plainKeys_getProp props key :
  plainKeys (JObject props) = true → plainKeys (getProp props key) = true.
Proof.
  intros [_ Hall]%plainKeys_object.
  induction Hall as [|[k v] props [_ Hv] _ IH]; cbn; [done|].
  by case_decide.
Qed.

Lemma noDot_response : noDot "response" = true.
Proof. reflexivity. Qed.

(** The identifiers of the handles of one block. *)
Lemma processBlock_ids block :
  plainKeys (Block.outputs block) = true →
  NoDup (Output.id <$> processBlock [] block).
Proof.
  intros Hplain. rewrite processBlock_contribution, app_nil_l.
  case_bool_decide; [constructor|]. unfold handlesOf.
  destruct (Block.outputs block) as [| | | | | |props]; try constructor.
  destruct (truthy _); [|constructor].
  destruct (plainKeys_leafPaths _ (plainKeys_getProp props "response" Hplain))
    as [Hdots Hdistinct].
  rewrite <- !list_fmap_compose. apply NoDup_fmap_2_strong; [|done].
  intros keys keys' Hkeys Hkeys'. unfold compose. cbn.
  intros Heq%(inj (String.append _))%(inj (String.append _)).
  rewrite Forall_forall in Hdots.
  apply dotJoin_inj in Heq; [by injection Heq| |];
    (constructor; [exact noDot_response | by apply Hdots]).
Qed.

(** X8. When the blocks of the store have pairwise distinct identifiers
    without underscore, and their [outputs] have no dot in a property
    name, the handles of the list have pairwise distinct identifiers: the
    keys of the buttons of the panel are distinct, and an identifier
    selects one handle. *)
Theorem identifiers_unique (workflowId : option string) (blocks : list Block.t) :
  NoDup (Block.id <$> blocks) →
  (∀ block, block ∈ blocks →
     noUnderscore (Block.id block) = true ∧ plainKeys (Block.outputs block) = true) →
  NoDup (Output.id <$> workflowOutputs workflowId blocks).
Proof.
  destruct (isSet workflowId) eqn:Hset.
  2:{ rewrite workflowOutputs_unset by done. constructor. }
  induction blocks as [|block blocks IH]; intros Hids Hblocks.
  { rewrite workflowOutputs_set by done. constructor. }
  rewrite workflowOutputs_cons, fmap_app.
  cbn [fmap list_fmap] in Hids. apply NoDup_cons in Hids as [Hfresh Hids].
  apply NoDup_app. split; [|split].
  - rewrite workflowOutputs_set by done. cbn. rewrite app_nil_r.
    apply processBlock_ids, Hblocks. by left.
  - intros id (first & -> & Hfirst)%list_elem_of_fmap
      (second & Heq & Hsecond)%list_elem_of_fmap.
    apply elem_of_workflowOutputs in Hfirst as (owner & keys & Howner & _ & ->).
    apply list_elem_of_singleton in Howner as ->.
    apply elem_of_workflowOutputs in Hsecond as (other & keys' & Hother & _ & ->).
    cbn in Heq. apply noUnderscore_split in Heq as [Heq _].
    + apply Hfresh. rewrite Heq. by apply list_elem_of_fmap_2.
    + apply Hblocks. by left.
    + apply Hblocks. by right.
  - apply IH; [done|]. intros other Hother. apply Hblocks. by right.
Qed.

Lemma identifiers_unique_witness :
  NoDup (Output.id <$> workflowOutputs (Some "wf") [start; writer; reviewer]).
Proof.
  apply (identifiers_unique (Some "wf") [start; writer; reviewer]).
  - by apply (bool_decide_unpack _).
  - apply (proj1 (Forall_forall
      (λ block, noUnderscore (Block.id block) = true
                ∧ plainKeys (Block.outputs block) = true) _)).
    repeat constructor.
Defined.

End handle_list.

(* ===================================================================== *)
(** * The selected handle and the dropdown *)
(* ===================================================================== *)

Section selection.
Import OutputSelect Reference Dropdown Examples MoreExamples.

(** X9. The badge and the text of the toggle button are those of one
    handle.  With the handle list of any blocks: when [selectedOutputInfo]
    is null the display name is the placeholder, and the selected
    identifier, if any, is the identifier of no handle; otherwise the
    selected identifier is the block id and the path of the info joined
    by an underscore, the info holds the block id, block name, block type
    and path of the first handle of that identifier, the display name is
    the label of that handle, and the info names a block of the store
    that is not the starter, with its identifier, name and type. *)
Theorem selected_info_agrees
    (workflowId selectedOutput : option string) (blocks : list Block.t)
    (placeholder : string) :
  let handles := workflowOutputs workflowId blocks in
  match selectedOutputInfo selectedOutput handles with
  | None =>
      selectedOutputDisplayName selectedOutput handles placeholder = placeholder
      ∧ ∀ selected, selectedOutput = Some selected → selected ∉ Output.id <$> handles
  | Some info =>
      selectedOutput = Some (Info.blockId info +:+ "_" +:+ Info.path info)
      ∧ (∃ selected output,
           selectedOutput = Some selected
           ∧ List.find (λ o, bool_decide (Output.id o = selected)) handles = Some output
           ∧ output ∈ handles
           ∧ Info.blockId info = Output.blockId output
           ∧ Info.blockName info = Output.blockName output
           ∧ Info.blockType info = Output.blockType output
           ∧ Info.path info = Output.path output
           ∧ selectedOutputDisplayName selectedOutput handles placeholder
             = Output.label output)
      ∧ ∃ block,
          block ∈ blocks
          ∧ Block.type block ≠ "starter"
          ∧ Info.blockId info = Block.id block
          ∧ Info.blockName info = Block.name block
          ∧ Info.blockType info = Block.type block
  end.
Proof.
  cbn zeta. unfold selectedOutputInfo, selectedOutputDisplayName.
  destruct selectedOutput as [selected|]; [|done].
  case_bool_decide as Hempty.
  { split; [done|]. intros ? [= <-] (output & Hid & Hin)%list_elem_of_fmap.
    apply workflowOutputs_id_nonempty in Hin. congruence. }
  destruct (List.find _ _) as [output|] eqn:Hfind.
  - pose proof Hfind as [Hin%list_elem_of_In Hid%bool_decide_eq_true]%find_some.
    pose proof Hin as (block & keys & Hblock & Htype & Houtput)%elem_of_workflowOutputs.
    split; [|split].
    + rewrite <- Hid, Houtput. done.
    + exists selected, output. repeat (split; [done|]). rewrite Houtput. done.
    + exists block. rewrite Houtput. done.
  - apply find_absent in Hfind. split; [done|]. by intros ? [= <-].
Qed.

(** ** The panel *)

Lemma panel_values selectedOutput (grouped : JsRecord (list Output.t)) :
  optionValue <$> panelButtons selectedOutput grouped
  = Output.id <$> concat (Object_entries grouped).*2.
Proof.
  unfold panelButtons, panel. generalize (Object_entries grouped).
  induction l as [|[name handles] l IH]; [done|].
  cbn [fmap list_fmap concat fst snd] in *. rewrite !fmap_app, IH. f_equal.
  rewrite <- list_fmap_compose. by apply list_fmap_ext.
Qed.

(** The record that is returned holds the handles of the list. *)
Lemma groupedOutputs_concat handles blocks edges grouped :
  groupedOutputs handles blocks edges = Normal grouped →
  concat (Object_entries grouped).*2 ≡ₚ handles.
Proof.
  intros (blockDistances & _ & _ & ->)%groupedOutputs_result.
  rewrite Object_entries_Permutation.
  etrans; [|apply groupsOf_concat]. apply concat_Permutation.
  by rewrite entries_outputs, groupsArray_outputs.
Qed.

Lemma panel_values_handles selectedOutput handles blocks edges grouped value :
  groupedOutputs handles blocks edges = Normal grouped →
  value ∈ optionValue <$> panelButtons selectedOutput grouped
  ↔ value ∈ Output.id <$> handles.
Proof.
  intros Hgrouped. rewrite panel_values.
  by rewrite (groupedOutputs_concat _ _ _ _ Hgrouped).
Qed.

Section events.
Context (handles : list Output.t) (blocks : list Block.t) (edges : list Edge.t)
  (grouped : JsRecord (list Output.t)) (selectedOutput : option string)
  (disabled : bool).
Hypothesis Hgrouped : groupedOutputs handles blocks edges = Normal grouped.

Lemma dispatch_selections state event :
  Forall (λ value, value ∈ Output.id <$> handles) (selections state) →
  Forall (λ value, value ∈ Output.id <$> handles)
    (selections (dispatch handles grouped selectedOutput disabled state event)).
Proof.
  intros Hstate. destruct event as [|[[]|]|value]; cbn; try done.
  - by destruct (buttonDisabled _ _).
  - destruct (panelRendered _ _); cbn; [|done]. case_bool_decide as Hvalue; [|done].
    cbn. apply Forall_app. split; [done|]. constructor; [|done].
    by eapply panel_values_handles.
Qed.

Lemma interact_selections events state :
  Forall (λ value, value ∈ Output.id <$> handles) (selections state) →
  Forall (λ value, value ∈ Output.id <$> handles)
    (selections (interact handles grouped selectedOutput disabled events state)).
Proof.
  revert state. induction events as [|event events IH]; intros state Hstate; [done|].
  apply IH. by apply dispatch_selections.
Qed.

End events.

(** Without handles no event changes the state. *)
Lemma interact_without_handles grouped selectedOutput disabled events state :
  isOutputDropdownOpen state = false →
  interact [] grouped selectedOutput disabled events state = state.
Proof.
  destruct state as [isOpen calls]. cbn. intros ->.
  induction events as [|event events IH]; [done|].
  cbn [interact fold_left]. by destruct event as [|[[]|]|value].
Qed.

(** X10. Whatever the sequence of clicks and of [mousedown] events, from
    the initial state and for as long as the props stay as they are,
    [onOutputSelect] is called only with identifiers of handles of the
    list; and when the list is empty, as it is when no workflow is
    selected, it is never called and the dropdown stays closed. *)
Theorem callback_receives_handle_ids
    (workflowId selectedOutput : option string) (blocks : list Block.t)
    (edges : list Edge.t) (grouped : JsRecord (list Output.t))
    (disabled : bool) (events : list Event) :
  let handles := workflowOutputs workflowId blocks in
  let final := interact handles grouped selectedOutput disabled events initial in
  groupedOutputs handles blocks edges = Normal grouped →
  Forall (λ value, value ∈ Output.id <$> handles) (selections final)
  ∧ (handles = [] → final = initial)
  ∧ (isSet workflowId = false → final = initial).
Proof.
  cbn zeta. intros Hgrouped. split; [|split].
  - by apply (interact_selections _ blocks edges).
  - intros ->. by apply interact_without_handles.
  - intros Hunset. rewrite workflowOutputs_unset by done.
    by apply interact_without_handles.
Qed.

Lemma callback_receives_handle_ids_witness :
  selections
    (interact (workflowOutputs (Some "wf") [start; writer; reviewer])
       [("Reviewer", workflowOutputs (Some "wf") [reviewer]);
        ("Writer", workflowOutputs (Some "wf") [writer])]
       None false
       [ToggleClick; OptionClick "w1_response.tokens"; OptionClick "r1_response.text";
        ToggleClick; MouseDown (Some false); OptionClick "w1_response.text";
        ToggleClick; OptionClick "w1_response"; OptionClick "r1_response.text"]
       initial)
  = ["w1_response.tokens"; "r1_response.text"]
  ∧ Forall (λ value,
              value ∈ Output.id <$> workflowOutputs (Some "wf") [start; writer; reviewer])
      ["w1_response.tokens"; "r1_response.text"].
Proof.
  split; [by vm_compute|].
  exact (proj1 (callback_receives_handle_ids (Some "wf") None [start; writer; reviewer]
                  review
                  [("Reviewer", workflowOutputs (Some "wf") [reviewer]);
                   ("Writer", workflowOutputs (Some "wf") [writer])]
                  false
                  [ToggleClick; OptionClick "w1_response.tokens";
                   OptionClick "r1_response.text";
                   ToggleClick; MouseDown (Some false); OptionClick "w1_response.text";
                   ToggleClick; OptionClick "w1_response"; OptionClick "r1_response.text"]
                  eq_refl)).
Defined.

(** X11. Every handle of the list can be selected: when the button is not
    disabled and the memo has completed, a click on the toggle button, if
    the dropdown is closed, and then a click on the button of the handle
    call [onOutputSelect] once, with the identifier of the handle, and
    leave the dropdown closed. *)
Theorem handle_selectable
    (handles : list Output.t) (blocks : list Block.t) (edges : list Edge.t)
    (grouped : JsRecord (list Output.t)) (selectedOutput : option string)
    (state : State) (output : Output.t) :
  groupedOutputs handles blocks edges = Normal grouped →
  output ∈ handles →
  interact handles grouped selectedOutput false
    ((if isOutputDropdownOpen state then [] else [ToggleClick])
     ++ [OptionClick (Output.id output)])
    state
  = mkState false (selections state ++ [Output.id output]).
Proof.
  intros Hgrouped Hin.
  assert (bool_decide (length handles = 0) = false) as Hlength.
  { apply bool_decide_eq_false. by destruct Hin. }
  assert (bool_decide (0 < length handles) = true) as Hpositive.
  { apply bool_decide_eq_true. destruct Hin; cbn; lia. }
  assert (bool_decide (Output.id output
                       ∈ optionValue <$> panelButtons selectedOutput grouped) = true)
    as Hbutton.
  { apply bool_decide_eq_true. eapply panel_values_handles; [done|].
    by apply list_elem_of_fmap_2. }
  destruct state as [[] calls]; cbn; unfold buttonDisabled, panelRendered; cbn;
    by rewrite ?Hlength, Hpositive, Hbutton.
Qed.

Lemma handle_selectable_witness :
  interact (workflowOutputs (Some "wf") [start; writer; reviewer])
    [("Reviewer", workflowOutputs (Some "wf") [reviewer]);
     ("Writer", workflowOutputs (Some "wf") [writer])]
    (Some "r1_response.text") false
    [ToggleClick; OptionClick "w1_response.tokens"] initial
  = mkState false ["w1_response.tokens"].
Proof.
  apply (handle_selectable (workflowOutputs (Some "wf") [start; writer; reviewer])
           [start; writer; reviewer] review
           [("Reviewer", workflowOutputs (Some "wf") [reviewer]);
            ("Writer", workflowOutputs (Some "wf") [writer])]
           (Some "r1_response.text") initial
           (handleAt writer ["response"; "tokens"]) eq_refl).
  vm_compute. right. by left.
Defined.

(** ** The selected button of the panel *)

Lemma panelButtons_fmap selectedOutput (grouped : JsRecord (list Output.t)) :
  panelButtons selectedOutput grouped
  = optionButton selectedOutput <$> concat (Object_entries grouped).*2.
Proof.
  unfold panelButtons, panel. generalize (Object_entries grouped).
  induction l as [|[name handles] l IH]; [done|].
  cbn [fmap list_fmap concat fst snd] in *. by rewrite fmap_app, IH.
Qed.

Lemma panel_keys selectedOutput (grouped : JsRecord (list Output.t)) :
  optionKey <$> panelButtons selectedOutput grouped
  = Output.id <$> concat (Object_entries grouped).*2.
Proof.
  rewrite panelButtons_fmap, <- list_fmap_compose. by apply list_fmap_ext.
Qed.

(** Among handles of distinct identifiers at most one is the selected
    one. *)
Lemma selected_at_most_once selectedOutput (handles : list Output.t) :
  NoDup (Output.id <$> handles) →
  length (filter (λ button, optionSelected button = true)
            (optionButton selectedOutput <$> handles)) ≤ 1.
Proof.
  induction handles as [|output handles IH]; [cbn; lia|].
  cbn [fmap list_fmap]. intros [Hfresh Hhandles]%NoDup_cons. rewrite filter_cons.
  case_decide as Hselected; [|by apply IH].
  cbn in Hselected. apply bool_decide_eq_true in Hselected.
  destruct (filter _ (optionButton selectedOutput <$> handles)) as [|button rest]
    eqn:Hfilter; [done|]. exfalso.
  assert (button ∈ filter (λ button, optionSelected button = true)
                     (optionButton selectedOutput <$> handles)) as Hin.
  { rewrite Hfilter. by left. }
  apply list_elem_of_filter in Hin as [Hsame (other & -> & Hother)%list_elem_of_fmap].
  cbn in Hsame. apply bool_decide_eq_true in Hsame. apply Hfresh.
  rewrite Hselected in Hsame. injection Hsame as ->.
  by apply list_elem_of_fmap_2.
Qed.

(** X17. The panel and the toggle button agree on the selection.  With the
    handle list of any blocks, once the memo has completed: a button of
    the panel is shown as selected exactly when the toggle button shows
    the badge of [selectedOutputInfo]; and when the handles have pairwise
    distinct identifiers, the buttons have pairwise distinct keys and at
    most one of them is shown as selected. *)
Theorem panel_selection_agrees
    (workflowId selectedOutput : option string) (blocks : list Block.t)
    (edges : list Edge.t) (grouped : JsRecord (list Output.t)) :
  let handles := workflowOutputs workflowId blocks in
  let rendered := panelButtons selectedOutput grouped in
  groupedOutputs handles blocks edges = Normal grouped →
  ((∃ button, button ∈ rendered ∧ optionSelected button = true)
   ↔ is_Some (selectedOutputInfo selectedOutput handles))
  ∧ (NoDup (Output.id <$> handles) →
     NoDup (optionKey <$> rendered)
     ∧ length (filter (λ button, optionSelected button = true) rendered) ≤ 1).
Proof.
  cbn zeta. intros Hperm%groupedOutputs_concat. split.
  - rewrite panelButtons_fmap. unfold selectedOutputInfo. split.
    + intros (button & (output & -> & Hin)%list_elem_of_fmap & Hselected).
      cbn in Hselected. apply bool_decide_eq_true in Hselected as ->.
      rewrite Hperm in Hin.
      rewrite bool_decide_eq_false_2 by (by eapply workflowOutputs_id_nonempty).
      destruct (List.find _ _) as [found|] eqn:Hfind; [done|].
      apply find_absent in Hfind. destruct Hfind. by apply list_elem_of_fmap_2.
    + destruct selectedOutput as [selected|]; [|by intros [? [=]]].
      case_bool_decide; [by intros [? [=]]|].
      destruct (List.find _ _) as [found|] eqn:Hfind; [|by intros [? [=]]].
      intros _. apply find_some in Hfind as [Hin%list_elem_of_In Hid%bool_decide_eq_true].
      exists (optionButton (Some selected) found). split.
      * apply list_elem_of_fmap_2. by rewrite Hperm.
      * cbn. apply bool_decide_eq_true. by rewrite Hid.
  - intros Hnodup. split.
    + by rewrite panel_keys, Hperm.
    + rewrite panelButtons_fmap. apply selected_at_most_once. by rewrite Hperm.
Qed.

Lemma panel_selection_agrees_witness :
  (∃ button,
      button ∈ panelButtons (Some "w1_response.tokens")
                 [("Reviewer", workflowOutputs (Some "wf") [reviewer]);
                  ("Writer", workflowOutputs (Some "wf") [writer])]
      ∧ optionSelected button = true)
  ↔ is_Some (selectedOutputInfo (Some "w1_response.tokens")
               (workflowOutputs (Some "wf") [start; writer; reviewer])).
Proof.
  exact (proj1 (panel_selection_agrees (Some "wf") (Some "w1_response.tokens")
                  [start; writer; reviewer] review
                  [("Reviewer", workflowOutputs (Some "wf") [reviewer]);
                   ("Writer", workflowOutputs (Some "wf") [writer])] eq_refl)).
Defined.

End selection.

(* ===================================================================== *)
(** * The rendered groups *)
(* ===================================================================== *)

Section rendered.
Import OutputSelect Reference Shape Examples MoreExamples.

Lemma toGroup_entries blockDistances (entries : list (string * list Output.t)) :
  (λ group, (blockName group, outputs group)) <$> (toGroup blockDistances <$> entries)
  = entries.
Proof.
  rewrite <- list_fmap_compose. etrans; [|apply list_fmap_id].
  apply list_fmap_ext. by intros _ [name handles] _.
Qed.

(** The rendered groups are the groups of the handle list, in some
    order. *)
Lemma renderedGroups_Permutation handles blocks edges rendered :
  renderedGroups handles blocks edges = Normal rendered →
  rendered ≡ₚ groupsOf handles.
Proof.
  unfold renderedGroups.
  destruct (groupedOutputs handles blocks edges) as [grouped| |] eqn:Hgrouped;
    cbn [bind]; [|done..].
  intros [= <-].
  apply groupedOutputs_result in Hgrouped as (blockDistances & _ & _ & ->).
  rewrite Object_entries_Permutation, groupsArray_Permutation.
  by rewrite toGroup_entries.
Qed.

(** X12. Whenever the memo completes, the groups of the panel are well
    formed: their names, the keys of the groups, are pairwise distinct and
    are the block names of the handles; no group is empty; and a group
    holds the handles of its name, all of them, in the order of the handle
    list. *)
Theorem rendered_groups_wellformed
    (handles : list Output.t) (blocks : list Block.t) (edges : list Edge.t)
    (rendered : list (string * list Output.t)) :
  renderedGroups handles blocks edges = Normal rendered →
  NoDup rendered.*1
  ∧ (∀ name, name ∈ rendered.*1
             ↔ ∃ output, output ∈ handles ∧ Output.blockName output = name)
  ∧ ∀ name group, (name, group) ∈ rendered →
      group ≠ [] ∧ group = handlesNamed name handles.
Proof.
  intros Hperm%renderedGroups_Permutation. split; [|split].
  - rewrite Hperm, groupsOf_keys. apply NoDup_firstNames.
  - intros name. rewrite Hperm, groupsOf_keys. apply elem_of_firstNames.
  - intros name group. rewrite Hperm. unfold groupsOf.
    intros (name' & [= -> ->] & Hname)%list_elem_of_fmap. split; [|done].
    intros Hempty%handlesNamed_nil. done.
Qed.

Lemma rendered_groups_wellformed_witness :
  NoDup ["Reviewer"; "Writer"]
  ∧ ∀ name group,
      (name, group) ∈ [("Reviewer", workflowOutputs (Some "wf") [reviewer]);
                       ("Writer", workflowOutputs (Some "wf") [writer])] →
      group ≠ []
      ∧ group = handlesNamed name (workflowOutputs (Some "wf") [start; writer; reviewer]).
Proof.
  pose proof (rendered_groups_wellformed
                (workflowOutputs (Some "wf") [start; writer; reviewer])
                [start; writer; reviewer] review
                [("Reviewer", workflowOutputs (Some "wf") [reviewer]);
                 ("Writer", workflowOutputs (Some "wf") [writer])] eq_refl)
    as (Hnames & _ & Hgroups).
  split; [exact Hnames | exact Hgroups].
Defined.

(** ** When nothing is raised *)

Lemma get_Inherited {V : Type} (r : JsRecord V) key :
  get r key = Inherited ↔ ownGet r key = None ∧ key ∈ objectPrototypeKeys.
Proof.
  unfold get. destruct (ownGet r key) as [v|].
  - split; [done | by intros [[=] _]].
  - case_bool_decide; (split; [done | by intros [_ ?]]).
Qed.

Lemma get_Missing {V : Type} (r : JsRecord V) key :
  get r key = Missing ↔ ownGet r key = None ∧ key ∉ objectPrototypeKeys.
Proof.
  unfold get. destruct (ownGet r key) as [v|].
  - split; [done | by intros [[=] _]].
  - case_bool_decide; (split; [done | by intros [_ ?]]).
Qed.

(** One edge: the source of an edge that is added is no member of
    [Object.prototype], the source of an edge that raises is one, and the
    properties of the adjacency list never are. *)
Lemma addEdge_outcome adjList edge :
  Forall (λ key, key ∉ objectPrototypeKeys) adjList.*1 →
  match addEdge adjList edge with
  | Normal adjList' =>
      (Edge.source edge ∉ objectPrototypeKeys)
      ∧ Forall (λ key, key ∉ objectPrototypeKeys) adjList'.*1
  | Throw _ => Edge.source edge ∈ objectPrototypeKeys
  | Unfinished => False
  end.
Proof.
  intros Hkeys. unfold addEdge.
  destruct (get adjList (Edge.source edge)) as [targets| |] eqn:Hread.
  - rewrite Hread. apply get_Own in Hread. rewrite Forall_forall in Hkeys.
    split; [by eapply Hkeys, ownGet_Some_key|].
    rewrite (ownSet_keys_old _ _ _ _ Hread). by apply Forall_forall.
  - rewrite Hread. by apply get_Inherited in Hread as [_ ?].
  - apply get_Missing in Hread as [Hnone Hordinary].
    unfold get at 1. rewrite ownGet_ownSet_eq, ownSet_ownSet, ownSet_new by done.
    split; [done|]. rewrite fmap_app. apply Forall_app. split; [done|].
    by repeat constructor.
Qed.

Lemma forEach_addEdge_outcome edges adjList :
  Forall (λ key, key ∉ objectPrototypeKeys) adjList.*1 →
  match forEach addEdge edges adjList with
  | Normal adjList' =>
      (∀ edge, edge ∈ edges → Edge.source edge ∉ objectPrototypeKeys)
      ∧ Forall (λ key, key ∉ objectPrototypeKeys) adjList'.*1
  | Throw _ => ∃ edge, edge ∈ edges ∧ Edge.source edge ∈ objectPrototypeKeys
  | Unfinished => False
  end.
Proof.
  revert adjList. induction edges as [|edge edges IH]; intros adjList Hkeys; cbn.
  - split; [by intros ? ?%elem_of_nil | done].
  - pose proof (addEdge_outcome adjList edge Hkeys) as Hadd.
    destruct (addEdge adjList edge) as [adjList1| |]; cbn [bind]; [| |done].
    + destruct Hadd as [Hsource Hkeys1]. specialize (IH adjList1 Hkeys1).
      destruct (forEach addEdge edges adjList1) as [adjList'| |]; [| |done].
      * destruct IH as [Hsources Hkeys']. split; [|done].
        intros other [->|Hother]%elem_of_cons; auto.
      * destruct IH as (other & Hother & Hproto). exists other. split; [by right|done].
    + exists edge. split; [by left|done].
Qed.

Section loop.
Context (adjList : JsRecord (list string)) (start : string).
Hypothesis Hkeys : Forall (λ key, key ∉ objectPrototypeKeys) adjList.*1.

(** An identifier that is expanded without a raise is no member of
    [Object.prototype]. *)
Lemma bfsStep_stored state state' :
  storedOrdinary state → bfsStep adjList state = Next state' → storedOrdinary state'.
Proof.
  unfold bfsStep, storedOrdinary.
  destruct state as [[|[id distance] rest] seen distances]; cbn [queue visited blockDistances];
    [done|].
  intros Hstored. case_bool_decide; [by intros [= <-]|].
  assert (get adjList id ≠ Inherited →
          ∀ id' distance', ownGet (ownSet distances id distance) id' = Some distance' →
                           id' ∉ objectPrototypeKeys) as Hnew.
  { intros Hread id' distance'. destruct (decide (id = id')) as [<-|Hne].
    - intros _ Hproto. apply Hread, get_Inherited. split; [|done].
      apply ownGet_None. intros Hkey. rewrite Forall_forall in Hkeys.
      by apply (Hkeys id).
    - rewrite ownGet_ownSet_ne by done. apply Hstored. }
  destruct (get adjList id) as [targets| |]; intros [= <-]; cbn [blockDistances];
    by apply Hnew.
Qed.

Lemma bfsLoop_stored bound state final :
  storedOrdinary state → bfsLoop bound adjList state = Normal final → storedOrdinary final.
Proof.
  revert state. induction bound as [|bound IH]; intros state Hstored; cbn;
    destruct (bfsStep adjList state) as [|state'|] eqn:Hstep; intros Hloop;
    try discriminate; try (by injection Hloop as <-).
  apply (IH state'); [by eapply bfsStep_stored | done].
Qed.

(** While every identifier that can be reached is ordinary, no iteration
    raises. *)
Lemma bfsLoop_no_raise bound state e :
  (∀ id n, walk (edgeOf adjList) n start id → id ∉ objectPrototypeKeys) →
  bfsInvariant adjList start state →
  bfsLoop bound adjList state ≠ Throw e.
Proof.
  intros Hreach. revert state. induction bound as [|bound IH]; intros state Hinv; cbn;
    destruct (bfsStep adjList state) as [|state'|e'] eqn:Hstep; try done;
    try (by eapply IH, bfsStep_invariant).
  all: exfalso; unfold bfsStep in Hstep;
    destruct Hinv as (_ & _ & _ & Hqueue & _);
    destruct (queue state) as [|[id distance] rest]; [done|];
    case_bool_decide; [done|];
    destruct (get adjList id) as [targets| |] eqn:Hread; try done;
    apply get_Inherited in Hread as [_ Hproto];
    by apply (Hreach id distance); [apply Hqueue; left|].
Qed.

End loop.

Lemma isSet_Some value :
  isSet value = true ↔ ∃ s, value = Some s ∧ s ≠ "".
Proof.
  destruct value as [s|]; cbn.
  - rewrite negb_true_iff, bool_decide_eq_false. split; [by eauto|].
    by intros (? & [= <-] & ?).
  - split; [done | by intros (? & [=] & _)].
Qed.

Lemma computeDistances_outcome blocks edges :
  (∃ blockDistances, computeDistances blocks edges = Normal blockDistances)
  ↔ ordinaryWorkflow blocks edges.
Proof.
  pose proof (computeDistances_finishes blocks edges) as Hfinishes.
  unfold computeDistances, ordinaryWorkflow in *.
  destruct (isSet (starterBlockId blocks)) eqn:Hset.
  2:{ split; [|by eauto]. intros _ start Hstart Hne.
      assert (isSet (starterBlockId blocks) = true) as Htrue
        by (apply isSet_Some; eauto).
      congruence. }
  apply isSet_Some in Hset as (start & Hstart & Hne). rewrite Hstart in *.
  change (default "" (Some start)) with start in *. unfold buildAdjList in *.
  pose proof (forEach_addEdge_outcome edges [] ltac:(constructor)) as Hbuild.
  destruct (forEach addEdge edges []) as [adjList| |] eqn:Hlist; cbn [bind] in *;
    [| |done].
  - destruct Hbuild as [Hsources Hkeys].
    pose proof (buildAdjList_edgeOf edges adjList Hlist) as Hext.
    destruct (bfsLoop _ _ _) as [final|e|] eqn:Hloop; cbn [bind] in *; [| |done].
    + split; [|by eauto]. intros _ ? [= <-] _. split; [done|].
      intros id n Hwalk.
      pose proof (bfsLoop_shortest adjList start _ _ _
                    (bfsInvariant_start adjList start) Hloop id) as Hfinal.
      destruct (ownGet (blockDistances final) id) as [distance|] eqn:Hget.
      * eapply (bfsLoop_stored adjList Hkeys _ _ final); [|done..].
        by intros ? ?.
      * destruct (Hfinal n). eapply walk_ext; [|done].
        intros ??. symmetry. apply Hext.
    + split; [by intros [? [=]]|]. intros Hordinary. exfalso.
      destruct (Hordinary start eq_refl Hne) as [_ Hreach].
      apply (bfsLoop_no_raise adjList start _ _ e) in Hloop;
        [done| |apply bfsInvariant_start].
      intros id n Hwalk. apply (Hreach id n). by eapply walk_ext.
  - split; [by intros [? [=]]|]. intros Hordinary. exfalso.
    destruct (Hordinary start eq_refl Hne) as [Hsources _].
    destruct Hbuild as (edge & Hin & Hproto). by apply (Hsources edge).
Qed.

(** X13. The memo raises exactly when a member of [Object.prototype] gets
    in its way.  The distance computation completes exactly when there is
    no starter to start from, or no edge leaves an identifier that names
    such a member and no such identifier is reached from the starter, the
    starter included; the groups are rendered exactly when, moreover, no
    handle has such a block name. *)
Theorem memo_completes_exactly
    (handles : list Output.t) (blocks : list Block.t) (edges : list Edge.t) :
  ((∃ blockDistances, computeDistances blocks edges = Normal blockDistances)
   ↔ ordinaryWorkflow blocks edges)
  ∧ ((∃ rendered, renderedGroups handles blocks edges = Normal rendered)
     ↔ ordinaryWorkflow blocks edges
       ∧ ∀ output, output ∈ handles → Output.blockName output ∉ objectPrototypeKeys).
Proof.
  split; [apply computeDistances_outcome|].
  rewrite <- computeDistances_outcome. unfold renderedGroups, groupedOutputs.
  rewrite groupByBlockName_result.
  destruct (computeDistances blocks edges) as [blockDistances| |]; cbn [bind].
  - case_bool_decide as Hproto; cbn [bind]; split.
    + by intros [? [=]].
    + intros [_ Hnames]. apply Exists_exists in Hproto as (output & Hin & Hname).
      by destruct (Hnames output Hin).
    + intros _. split; [by eauto|]. intros output Hin Hname.
      apply Hproto, Exists_exists. eauto.
    + eauto.
  - split; [by intros [? [=]] | by intros [[? [=]] _]].
  - split; [by intros [? [=]] | by intros [[? [=]] _]].
Qed.

(** The memo at two workflows: an ordinary one, and one in which the
    starter leads to a block whose identifier names a member of
    [Object.prototype]. *)
Example memo_completes :
  (∃ rendered,
      renderedGroups (workflowOutputs (Some "wf") [start; writer; reviewer])
        [start; writer; reviewer] review
      = Normal rendered)
  ∧ computeDistances [start; writer] [Edge.mk "start" "valueOf"]
    = Throw (TypeError "outgoingNodeIds is not iterable").
Proof. split; [eexists|]; by vm_compute. Qed.

(** ** Without a starter *)

Lemma insertSorted_first {A : Type} (compareFn : A → A → Z) x l :
  (∀ y, y ∈ l → (compareFn x y <= 0)%Z) → insertSorted compareFn x l = x :: l.
Proof.
  destruct l as [|y l]; [done|]. intros Hle. cbn.
  rewrite (proj2 (Z.leb_le _ _)); [done|]. apply Hle. by left.
Qed.

(** A comparator that never asks for an exchange leaves the array as it
    is. *)
Lemma Array_sort_unchanged {A : Type} (compareFn : A → A → Z) l :
  (∀ x y, x ∈ l → y ∈ l → (compareFn x y <= 0)%Z) → Array_sort compareFn l = l.
Proof.
  induction l as [|x l IH]; [done|]. intros Hle.
  change (Array_sort compareFn (x :: l))
    with (insertSorted compareFn x (Array_sort compareFn l)).
  rewrite IH.
  - apply insertSorted_first. intros y Hy. apply Hle; [by left | by right].
  - intros y z Hy Hz. apply Hle; by right.
Qed.

Lemma starterBlockId_None blocks :
  (∀ block, block ∈ blocks → Block.type block ≠ "starter") → starterBlockId blocks = None.
Proof.
  intros Hnone. unfold starterBlockId.
  destruct (List.find _ _) as [block|] eqn:Hfind; [|done].
  apply find_some in Hfind as [Hin%list_elem_of_In Htype%bool_decide_eq_true].
  by destruct (Hnone block Hin).
Qed.

Lemma distanceOf_nil blockId : hops (distanceOf [] blockId) = 0.
Proof.
  unfold distanceOf. destruct (isSet blockId); [|done].
  unfold get. cbn. by case_bool_decide.
Qed.

Lemma byDistanceDescending_nil (first second : string * list Output.t) :
  byDistanceDescending (toGroup [] first) (toGroup [] second) = 0%Z.
Proof.
  unfold byDistanceDescending, toGroup. cbn [distance].
  pose proof (distanceOf_nil (Output.blockId <$> head second.2)) as Hsecond.
  pose proof (distanceOf_nil (Output.blockId <$> head first.2)) as Hfirst.
  destruct (distanceOf [] _) as [n|], (distanceOf [] _) as [m|]; cbn in *; try done.
  by subst.
Qed.

(** X14. Without a block of the starter type no distance is computed and
    the sort exchanges nothing: for block names that are neither array
    indices nor members of [Object.prototype] the groups are rendered in
    the order in which the handle list first names them, whatever the
    edges are. *)
Theorem without_starter_discovery_order
    (handles : list Output.t) (blocks : list Block.t) (edges : list Edge.t) :
  (∀ block, block ∈ blocks → Block.type block ≠ "starter") →
  (∀ output, output ∈ handles →
     isArrayIndex (Output.blockName output) = false
     ∧ Output.blockName output ∉ objectPrototypeKeys) →
  computeDistances blocks edges = Normal []
  ∧ renderedGroups handles blocks edges = Normal (groupsOf handles).
Proof.
  intros Hnone%starterBlockId_None Hnames.
  assert (computeDistances blocks edges = Normal []) as Hdistances.
  { unfold computeDistances. by rewrite Hnone. }
  split; [done|].
  unfold renderedGroups, groupedOutputs. rewrite Hdistances. cbn [bind].
  rewrite groupByBlockName_result, bool_decide_eq_false_2.
  2:{ intros (output & Hin & Hname)%Exists_exists. by apply (Hnames output). }
  cbn [bind]. f_equal.
  assert (Forall (λ key, isArrayIndex key = false) (groupsOf handles).*1) as Hordinary.
  { rewrite groupsOf_keys. apply Forall_forall.
    intros name (output & Hin & <-)%elem_of_firstNames. by apply Hnames. }
  assert (groupsArray [] (groupsOf handles) = toGroup [] <$> groupsOf handles) as ->.
  { unfold groupsArray. rewrite Object_entries_ordinary by done.
    apply Array_sort_unchanged.
    intros first second (? & -> & _)%list_elem_of_fmap (? & -> & _)%list_elem_of_fmap.
    by rewrite byDistanceDescending_nil. }
  rewrite toRecord_entries.
  - rewrite toGroup_entries. by apply Object_entries_ordinary.
  - rewrite toGroup_blockName, groupsOf_keys. apply NoDup_firstNames.
Qed.

Lemma without_starter_discovery_order_witness :
  renderedGroups (workflowOutputs (Some "wf") [writer; reviewer]) [writer; reviewer] review
  = Normal [("Writer", workflowOutputs (Some "wf") [writer]);
            ("Reviewer", workflowOutputs (Some "wf") [reviewer])].
Proof.
  refine (proj2 (without_starter_discovery_order
                   (workflowOutputs (Some "wf") [writer; reviewer])
                   [writer; reviewer] review _ _)).
  - apply (proj1 (Forall_forall (λ block, Block.type block ≠ "starter") _)).
    by repeat constructor.
  - apply (proj1 (Forall_forall
      (λ o, isArrayIndex (Output.blockName o) = false
            ∧ Output.blockName o ∉ objectPrototypeKeys) _)).
    repeat constructor; by apply (bool_decide_unpack _).
Defined.

End rendered.

(* ===================================================================== *)
(** * The buttons of the settings navigation *)
(* ===================================================================== *)

Section navigation_buttons.
Import SettingsNavigation SettingsNavigationView.

Lemma sectionName_inj first second :
  sectionName first = sectionName second → first = second.
Proof. by destruct first, second. Qed.

Lemma buttons_keys isDev isTeam activeSection :
  buttonKey <$> buttons isDev isTeam activeSection = id <$> navigationItems isDev isTeam.
Proof. unfold buttons. rewrite <- list_fmap_compose. by apply list_fmap_ext. Qed.

Lemma navigationItems_ids isDev isTeam : NoDup (id <$> navigationItems isDev isTeam).
Proof. destruct isDev, isTeam as [[]|]; by apply (bool_decide_unpack _). Qed.

(** Among items of distinct identifiers at most one is the active
    section. *)
Lemma active_at_most_once activeSection (items : list NavigationItem) :
  NoDup (id <$> items) →
  length (filter (λ button, buttonActive button = true) (navButton activeSection <$> items))
  ≤ 1.
Proof.
  induction items as [|item items IH]; [cbn; lia|].
  cbn [fmap list_fmap]. intros [Hfresh Hitems]%NoDup_cons. rewrite filter_cons.
  case_decide as Hactive; [|by apply IH].
  cbn in Hactive. apply bool_decide_eq_true in Hactive.
  destruct (filter _ (navButton activeSection <$> items)) as [|button rest] eqn:Hfilter;
    [done|]. exfalso.
  assert (button ∈ filter (λ button, buttonActive button = true)
                     (navButton activeSection <$> items)) as Hin.
  { rewrite Hfilter. by left. }
  apply list_elem_of_filter in Hin as [Hsame (other & -> & Hother)%list_elem_of_fmap].
  cbn in Hsame. apply bool_decide_eq_true in Hsame. apply Hfresh.
  rewrite Hactive in Hsame. apply sectionName_inj in Hsame as ->.
  by apply list_elem_of_fmap_2.
Qed.

(** X15. The buttons of the navigation have pairwise distinct keys; at
    most one of them is shown as the active section, and one is exactly
    when [activeSection] names an item that passes the filter; and
    [onSectionChange] is handed the subscription section only when the
    dev flag is false, the team section only when moreover the team flag
    is true. *)
Theorem navigation_buttons_active
    (isDev : bool) (isTeam : option bool) (activeSection : string) :
  let rendered := buttons isDev isTeam activeSection in
  NoDup (buttonKey <$> rendered)
  ∧ length (filter (λ button, buttonActive button = true) rendered) ≤ 1
  ∧ ((∃ button, button ∈ rendered ∧ buttonActive button = true)
     ↔ ∃ item, item ∈ navigationItems isDev isTeam
               ∧ activeSection = sectionName (id item))
  ∧ ∀ button, button ∈ rendered →
      (buttonSection button = subscription → isDev = false)
      ∧ (buttonSection button = team → isDev = false ∧ isTeam = Some true).
Proof.
  cbn zeta. split; [|split; [|split]].
  - rewrite buttons_keys. apply navigationItems_ids.
  - apply active_at_most_once, navigationItems_ids.
  - unfold buttons. split.
    + intros (button & (item & -> & Hitem)%list_elem_of_fmap & Hactive).
      exists item. split; [done|]. by apply bool_decide_eq_true in Hactive.
    + intros (item & Hitem & Hactive). exists (navButton activeSection item).
      split; [by apply list_elem_of_fmap_2 | by apply bool_decide_eq_true].
  - unfold buttons. intros button (item & -> & Hitem)%list_elem_of_fmap.
    cbn [navButton buttonSection].
    destruct isDev, isTeam as [[]|]; vm_compute in Hitem;
      repeat (apply elem_of_cons in Hitem as [->|Hitem]; [by split|]);
      by apply elem_of_nil in Hitem.
Qed.

Lemma filter_sublist_mono {A : Type} (f g : A → bool) (l : list A) :
  (∀ x, f x = true → g x = true) → List.filter f l `sublist_of` List.filter g l.
Proof.
  intros Himpl. induction l as [|x l IH]; cbn; [done|].
  destruct (f x) eqn:Hf.
  - rewrite (Himpl x Hf). by apply sublist_skip.
  - destruct (g x); [by apply sublist_cons | done].
Qed.

(** X16. The filter is monotone in the two flags: an item shown in
    development is shown in production, an item shown without the team
    flag is shown with it, and with the dev flag false and the team flag
    true every item of the static list is shown. *)
Theorem navigation_monotone (isDev : bool) (isTeam : option bool) :
  navigationItems true isTeam `sublist_of` navigationItems isDev isTeam
  ∧ navigationItems isDev None `sublist_of` navigationItems isDev isTeam
  ∧ navigationItems isDev isTeam `sublist_of` navigationItems false (Some true)
  ∧ navigationItems false (Some true) = allNavigationItems.
Proof.
  unfold navigationItems. split; [|split; [|split; [|reflexivity]]];
    apply filter_sublist_mono; intros item; unfold isVisible, isTrue;
    destruct (hideInDev item) as [[]|], (requiresTeam item) as [[]|], isDev,
      isTeam as [[]|]; done.
Qed.

End navigation_buttons.
